(** * Bet parser and aggregation report of the Telegram bet bot

    A shallow embedding of [lib/parser.js] (module [Parser]), of the
    summary path of the webhook handler (module [Webhook]) and of the
    handler itself (module [Handler]), over a small model of the
    JavaScript values they use (module [Js]).

    Modelling conventions.
    - A JavaScript string is the list of its UTF-16 code units, each an [N].
    - A JavaScript number is a binary64 value.  [Js.num] holds the values
      the code computes with: the whole numbers, NaN and the two
      infinities.  Addition, [parseInt] and printing round as binary64
      does.  Numbers with a fraction are outside [Js.num], and so are
      the strings that denote a number in another notation than an
      optionally signed decimal integer; the properties of sums are
      stated for amounts that are whole numbers and stay within 2^53.
    - A date is its time value in milliseconds, NaN for an invalid date.
    - An ordinary object used as a dictionary is an association list in
      insertion order, read back in the property order of the language
      (array-index keys first, ascending, then the other keys in insertion
      order).  The prototype of the object is not modelled: every
      property about an object is stated for keys that are not names
      inherited from [Object.prototype] ([Props.plainKey]). *)

From Stdlib Require Import ZArith NArith List Bool Lia String Ascii.
From Stdlib Require Import Floats.PrimFloat Floats.SpecFloat Floats.FloatOps.
From Stdlib Require Import Sorting.Sorted Sorting.Permutation.
Import ListNotations.

(* ================================================================== *)
(** * JavaScript values *)
(* ================================================================== *)

Module Js.

(** ** Strings as code-unit lists *)

Definition jstring := list N.

(** A literal written with ASCII characters only. *)
Definition lit (s : string) : jstring :=
  map N_of_ascii (list_ascii_of_string s).

Definition jstring_eq_dec : forall a b : jstring, {a = b} + {a <> b} :=
  list_eq_dec N.eq_dec.

Definition eqb (a b : jstring) : bool :=
  if jstring_eq_dec a b then true else false.

(** Comparison of two strings by code units, the order of the relational
    operators on strings and of [Array.prototype.sort] without comparator. *)
Fixpoint compare (a b : jstring) : comparison :=
  match a, b with
  | [], [] => Eq
  | [], _ :: _ => Lt
  | _ :: _, [] => Gt
  | x :: a', y :: b' =>
      match N.compare x y with
      | Eq => compare a' b'
      | c => c
      end
  end.

Definition leb (a b : jstring) : bool :=
  match compare a b with Gt => false | _ => true end.

Definition lt (a b : jstring) : Prop := compare a b = Lt.

(** ** Character classes *)

(** [\d] *)
Definition isDigit (c : N) : bool := ((48 <=? c) && (c <=? 57))%N.

(** [\s], which is also the set stripped by [trim]: WhiteSpace and
    LineTerminator code points. *)
Definition isSpace (c : N) : bool :=
  (existsb (N.eqb c)
     [9; 10; 11; 12; 13; 32; 160; 5760; 8232; 8233; 8239; 8287; 12288; 65279]
   || ((8192 <=? c) && (c <=? 8202)))%N.

Definition oneOf (cs : jstring) (c : N) : bool := existsb (N.eqb c) cs.

(** ** Numbers *)

(** A number: a whole number (a binary64 value without fraction), NaN,
    or an infinity with its sign. *)
Inductive num := Int (z : Z) | NaN | Inf (negative : bool).

(** Every integer up to 2^53 in magnitude is a binary64 value. *)
Definition maxSafe : Z := 9007199254740992.

(** The binary64 value nearest to an integer beyond 2^53, ties to the even
    significand: 53 bits are kept, and a result of 2^1024 or more is an
    infinity. *)
Definition roundBig (z : Z) : num :=
  let a := Z.abs z in
  let shift := (Z.log2 a - 52)%Z in
  let q := (a / 2 ^ shift)%Z in
  let r := (a mod 2 ^ shift)%Z in
  let half := (2 ^ (shift - 1))%Z in
  let q' := if ((half <? r) || ((r =? half) && Z.odd q))%Z
            then (q + 1)%Z else q in
  let v := (q' * 2 ^ shift)%Z in
  if (2 ^ 1024 <=? v)%Z then Inf (z <? 0)%Z else Int (Z.sgn z * v)%Z.

(** The number an integer denotes. *)
Definition fromInteger (z : Z) : num :=
  if (Z.abs z <=? maxSafe)%Z then Int z else roundBig z.

(** [a + b]: the exact sum, rounded. *)
Definition num_add (a b : num) : num :=
  match a, b with
  | Int x, Int y => fromInteger (x + y)
  | NaN, _ => NaN
  | _, NaN => NaN
  | Inf s, Int _ => Inf s
  | Int _, Inf s => Inf s
  | Inf s, Inf t => if Bool.eqb s t then Inf s else NaN
  end.

Definition num_eqb (a b : num) : bool :=
  match a, b with
  | Int x, Int y => (x =? y)%Z
  | NaN, NaN => true
  | Inf s, Inf t => Bool.eqb s t
  | _, _ => false
  end.

Definition digitVal (c : N) : Z := (Z.of_N c - 48)%Z.

(** Value of a digit string read left to right in base ten. *)
Definition digitsValue (ds : jstring) : Z :=
  fold_left (fun acc c => (10 * acc + digitVal c)%Z) ds 0%Z.

Fixpoint takeWhile (p : N -> bool) (s : jstring) : jstring :=
  match s with
  | c :: s' => if p c then c :: takeWhile p s' else []
  | [] => []
  end.

Fixpoint dropWhile (p : N -> bool) (s : jstring) : jstring :=
  match s with
  | c :: s' => if p c then dropWhile p s' else s
  | [] => []
  end.

(** An optional sign in front of a numeral. *)
Definition signOf (s : jstring) : Z * jstring :=
  match s with
  | 45%N :: r => ((-1)%Z, r)
  | 43%N :: r => (1%Z, r)
  | _ => (1%Z, s)
  end.

(** [parseInt(s, 10)]: leading white space is skipped, a sign is accepted,
    the longest digit prefix is read, NaN when there is none.  The result
    is the binary64 value nearest to the integer the digits denote. *)
Definition parseInt10 (s : jstring) : num :=
  let p := signOf (dropWhile isSpace s) in
  match takeWhile isDigit (snd p) with
  | [] => NaN
  | ds => fromInteger (fst p * digitsValue ds)
  end.

(** [String.prototype.trim] *)
Definition trim (s : jstring) : jstring :=
  rev (dropWhile isSpace (rev (dropWhile isSpace s))).

(** [s.split(sep)] for a separator pattern that matches exactly one code
    unit of the class [sep]. *)
Fixpoint split (sep : N -> bool) (s : jstring) : list jstring :=
  match s with
  | [] => [[]]
  | c :: s' =>
      if sep c then [] :: split sep s'
      else match split sep s' with
           | p :: ps => (c :: p) :: ps
           | [] => [[c]]
           end
  end.

(** [s.replace(/\s+/g, " ")]; [inRun] tells that the previous code unit
    belonged to the white-space run being replaced. *)
Fixpoint collapseFrom (inRun : bool) (s : jstring) : jstring :=
  match s with
  | [] => []
  | c :: s' =>
      if isSpace c
      then (if inRun then collapseFrom true s' else 32%N :: collapseFrom true s')
      else c :: collapseFrom false s'
  end.

Definition collapseSpaces (s : jstring) : jstring := collapseFrom false s.

(** [arr.join(sep)] on an array of strings *)
Fixpoint join (sep : jstring) (l : list jstring) : jstring :=
  match l with
  | [] => []
  | [x] => x
  | x :: l' => x ++ sep ++ join sep l'
  end.

(** ** Anchored patterns

    Every pattern of the parser has the shape [^ p1 p2 ... pn $] where each
    [pi] is a character class under a greedy quantifier, possibly inside a
    capturing group.  [rep] is the backtracking search of one quantified
    class: it takes as many code units as allowed and gives back one at a
    time while the rest of the pattern fails. *)

Record piece := Piece {
  cls : N -> bool;
  lo : nat;
  hi : option nat;
  cap : bool
}.

Definition more (h : option nat) : bool :=
  match h with Some O => false | _ => true end.

Fixpoint rep {R} (c : N -> bool) (l : nat) (h : option nat) (s : jstring)
  (k : jstring -> jstring -> option R) : option R :=
  let stop := match l with O => k [] s | S _ => None end in
  match s with
  | x :: s' =>
      if c x && more h then
        match rep c (pred l) (option_map pred h) s'
                (fun a rest => k (x :: a) rest) with
        | Some r => Some r
        | None => stop
        end
      else stop
  | [] => stop
  end.

(** The captures of the groups, in order, when the whole of [s] matches. *)
Fixpoint matchPieces (ps : list piece) (s : jstring) : option (list jstring) :=
  match ps with
  | [] => match s with [] => Some [] | _ :: _ => None end
  | p :: ps' =>
      rep (cls p) (lo p) (hi p) s
        (fun a rest =>
           match matchPieces ps' rest with
           | Some caps => Some (if cap p then a :: caps else caps)
           | None => None
           end)
  end.

(** [s.match(re)] for an anchored pattern without the global flag: the
    array holds the matched text, then the captures. *)
Definition matchRe (ps : list piece) (s : jstring) : option (list jstring) :=
  match matchPieces ps s with
  | Some caps => Some (s :: caps)
  | None => None
  end.

(** [m[i]] on a match array of strings *)
Definition idx (m : list jstring) (i : nat) : jstring := nth i m [].

(** ** Sorting

    [sortBy] is a stable insertion sort; on the keys of an object, which
    are pairwise distinct, every correct sort returns the same array. *)

Fixpoint insertBy {A} (le : A -> A -> bool) (x : A) (l : list A) : list A :=
  match l with
  | [] => [x]
  | y :: l' => if le x y then x :: l else y :: insertBy le x l'
  end.

Definition sortBy {A} (le : A -> A -> bool) (l : list A) : list A :=
  fold_right (insertBy le) [] l.

(** [arr.sort()] on an array of strings *)
Definition sort (l : list jstring) : list jstring := sortBy leb l.

(** ** Ordinary objects used as dictionaries *)

Definition obj (V : Type) := list (jstring * V).

(** [o[k]] on the own properties of [o], [None] standing for [undefined].
    A name that [o] inherits from [Object.prototype] is read there when
    it is no own property; such keys are kept out by [Props.plainKey]. *)
Fixpoint get {V} (o : obj V) (k : jstring) : option V :=
  match o with
  | [] => None
  | (k', v) :: o' => if eqb k' k then Some v else get o' k
  end.

(** [o[k] = v]: an existing property keeps its place, a new one is added
    last.  The key [__proto__] is an accessor and creates no property; it
    is kept out by [Props.plainKey]. *)
Fixpoint set {V} (o : obj V) (k : jstring) (v : V) : obj V :=
  match o with
  | [] => [(k, v)]
  | (k', v') :: o' =>
      if eqb k' k then (k', v) :: o' else (k', v') :: set o' k v
  end.

(** The array index a property key denotes, if any: a canonical decimal
    numeral below 2^32 - 1. *)
Definition arrayIndex (k : jstring) : option N :=
  match k with
  | [] => None
  | c :: rest =>
      if forallb isDigit k
         && (negb (N.eqb c 48) || match rest with [] => true | _ => false end)
      then
        let v := Z.to_N (digitsValue k) in
        if (v <? 4294967295)%N then Some v else None
      else None
  end.

Definition isIndexKey (k : jstring) : bool :=
  match arrayIndex k with Some _ => true | None => false end.

Definition indexOf (k : jstring) : N :=
  match arrayIndex k with Some v => v | None => 0%N end.

(** [Object.entries(o)]: array-index keys in ascending numeric order, then
    the other keys in the order they were created. *)
Definition entries {V} (o : obj V) : list (jstring * V) :=
  sortBy (fun a b => (indexOf (fst a) <=? indexOf (fst b))%N)
         (filter (fun e => isIndexKey (fst e)) o)
  ++ filter (fun e => negb (isIndexKey (fst e))) o.

(** [Object.keys(o)] *)
Definition keys {V} (o : obj V) : list jstring := map fst (entries o).

(** ** Conversions *)

Fixpoint unitsOfUint (d : Decimal.uint) : jstring :=
  match d with
  | Decimal.Nil => []
  | Decimal.D0 d' => 48%N :: unitsOfUint d'
  | Decimal.D1 d' => 49%N :: unitsOfUint d'
  | Decimal.D2 d' => 50%N :: unitsOfUint d'
  | Decimal.D3 d' => 51%N :: unitsOfUint d'
  | Decimal.D4 d' => 52%N :: unitsOfUint d'
  | Decimal.D5 d' => 53%N :: unitsOfUint d'
  | Decimal.D6 d' => 54%N :: unitsOfUint d'
  | Decimal.D7 d' => 55%N :: unitsOfUint d'
  | Decimal.D8 d' => 56%N :: unitsOfUint d'
  | Decimal.D9 d' => 57%N :: unitsOfUint d'
  end.

(** The decimal digits of an integer, with its sign. *)
Definition showZ (z : Z) : jstring :=
  match Z.to_int z with
  | Decimal.Pos d => unitsOfUint d
  | Decimal.Neg d => 45%N :: unitsOfUint d
  end.

(** The decimal integer that is printed for a binary64 value [a] beyond
    2^53 with [D] decimal digits: the one with the fewest significant
    digits that still denotes [a], the nearest to [a] when there are two. *)
Fixpoint shortest (fuel : nat) (k : Z) (a D : Z) : Z :=
  match fuel with
  | O => a
  | S fuel' =>
      let p := (D - k)%Z in
      let c := (a / 10 ^ p)%Z in
      let v1 := (c * 10 ^ p)%Z in
      let v2 := ((c + 1) * 10 ^ p)%Z in
      let ok1 := num_eqb (fromInteger v1) (Int a) in
      let ok2 := num_eqb (fromInteger v2) (Int a) in
      if ok1 && ok2 then
        if (a - v1 <? v2 - a)%Z then v1
        else if (v2 - a <? a - v1)%Z then v2
        else if Z.even c then v1 else v2
      else if ok1 then v1
      else if ok2 then v2
      else shortest fuel' (k + 1)%Z a D
  end.

(** [Number::toString] on a whole number beyond 2^53: the digits of the
    shortest decimal, in full up to 21 digits and with an exponent from
    there on. *)
Definition showBig (a : Z) : jstring :=
  let v := shortest 17 1 a (Z.of_nat (List.length (showZ a))) in
  let ds := showZ v in
  let n := List.length ds in
  if Nat.leb n 21 then ds
  else
    match rev (dropWhile (N.eqb 48) (rev ds)) with
    | [] => ds
    | d :: rest =>
        d :: match rest with [] => [] | _ :: _ => 46%N :: rest end
          ++ lit "e+" ++ showZ (Z.of_nat (n - 1))
    end.

(** The string a number turns into inside a template literal. *)
Definition showNum (n : num) : jstring :=
  match n with
  | NaN => lit "NaN"
  | Inf false => lit "Infinity"
  | Inf true => lit "-Infinity"
  | Int z =>
      if (Z.abs z <=? maxSafe)%Z then showZ z
      else if (z <? 0)%Z then 45%N :: showBig (Z.abs z)
      else showBig z
  end.

Inductive jsval :=
| VUndefined
| VNull
| VBool (b : bool)
| VNum (n : num)
| VStr (s : jstring).

(** The numeric value of a string, on the strings this development uses:
    empty after trimming is 0, an optionally signed decimal integer is the
    number it denotes, a text that is no numeral is NaN.  Numerals in
    another notation (a fraction, an exponent, a radix prefix, the word
    Infinity) are not covered: no property is stated for them. *)
Definition stringToNumber (s : jstring) : num :=
  match trim s with
  | [] => Int 0
  | t =>
      let p := signOf t in
      match snd p with
      | [] => NaN
      | ds => if forallb isDigit ds then fromInteger (fst p * digitsValue ds) else NaN
      end
  end.

(** [Number(v)] *)
Definition toNumber (v : jsval) : num :=
  match v with
  | VUndefined => NaN
  | VNull => Int 0
  | VBool b => Int (if b then 1 else 0)
  | VNum n => n
  | VStr s => stringToNumber s
  end.

Definition truthyNum (n : num) : bool :=
  match n with
  | Int z => negb (z =? 0)%Z
  | NaN => false
  | Inf _ => true
  end.

(** Truthiness of a value *)
Definition toBoolean (v : jsval) : bool :=
  match v with
  | VUndefined | VNull => false
  | VBool b => b
  | VNum n => truthyNum n
  | VStr s => match s with [] => false | _ :: _ => true end
  end.

(** [x || 0] where [x] is a number or [undefined] *)
Definition orZero (x : option num) : num :=
  match x with
  | Some n => if truthyNum n then n else Int 0
  | None => Int 0
  end.

End Js.

(* ================================================================== *)
(** * lib/parser.js *)
(* ================================================================== *)

Module Parser.
Import Js.

Record Bet := mkBet { number : jstring; amount : num }.

Definition pad2 (s : jstring) : jstring :=
  if Nat.eqb (List.length s) 1 then lit "0" ++ s else s.

(** [padStart(2, "0")] *)
Definition padStart2 (s : jstring) : jstring :=
  repeat 48%N (2 - List.length s) ++ s.

Definition reverse2 (s : jstring) : jstring := rev (padStart2 s).

(** The quantified classes of the four patterns. *)
Definition num12 := Piece isDigit 1 (Some 2%nat) true.      (* (\d{1,2}) *)
Definition spaces := Piece isSpace 0 None false.            (* \s*       *)
Definition spaces1 := Piece isSpace 1 None false.           (* \s+       *)
Definition digits := Piece isDigit 1 None true.             (* (\d+)     *)
Definition optOf (cs : string) := Piece (oneOf (lit cs)) 0 (Some 1%nat) false.
Definition oneOfP (cs : string) := Piece (oneOf (lit cs)) 1 (Some 1%nat) false.

(** [/^(\d{1,2})\s*[-_dD]?\s*(\d+)$/] *)
Definition reDelim := [num12; spaces; optOf "-_dD"; spaces; digits].
(** [/^(\d{1,2})\s*[rR]\s*(\d+)$/] *)
Definition reReverse := [num12; spaces; oneOfP "rR"; spaces; digits].
(** [/^(\d{1,2})\s*=\s*(\d+)$/] *)
Definition reEquals := [num12; spaces; oneOfP "="; spaces; digits].
(** [/^(\d{1,2})\s+(\d+)$/] *)
Definition reSpace := [num12; spaces1; digits].

(** The body of the loop: the bets pushed for one part. *)
Definition betsOfPart (part0 : jstring) : list Bet :=
  let part := collapseSpaces part0 in
  match matchRe reDelim part with
  | Some m => [mkBet (pad2 (idx m 1)) (parseInt10 (idx m 2))]
  | None =>
  match matchRe reReverse part with
  | Some m =>
      let num := pad2 (idx m 1) in
      let rev := reverse2 num in
      [mkBet num (parseInt10 (idx m 2)); mkBet rev (parseInt10 (idx m 2))]
  | None =>
  match matchRe reEquals part with
  | Some m => [mkBet (pad2 (idx m 1)) (parseInt10 (idx m 2))]
  | None =>
  match matchRe reSpace part with
  | Some m => [mkBet (pad2 (idx m 1)) (parseInt10 (idx m 2))]
  | None => []
  end end end end.

Definition isSeparator (c : N) : bool := oneOf [10%N; 44%N] c.

Definition nonEmpty (s : jstring) : bool :=
  match s with [] => false | _ :: _ => true end.

(** [text.split(/\n|,/).map(s => s.trim()).filter(Boolean)] *)
Definition partsOf (text : jstring) : list jstring :=
  filter nonEmpty (map trim (split isSeparator text)).

Definition parseMessageToBets (text : jstring) : list Bet :=
  match text with
  | [] => []
  | _ :: _ =>
      fold_left (fun bets part => bets ++ betsOfPart part) (partsOf text) []
  end.

End Parser.


(* ================================================================== *)
(** * The summary path of the webhook handler *)
(* ================================================================== *)

Module Webhook.
Import Js.

(** A row of the [bets] table as selected by the handler.  [created_at]
    holds the time value [new Date(r.created_at).getTime()] of the stored
    ISO string, NaN for a string that is not a date. *)
Record Row := mkRow {
  number : jstring;
  amount : jsval;
  sender : jstring;
  created_at : num
}.

(** *** The filter of [before12] *)

Definition msPerHour : Z := 3600000.
Definition maxTimeValue : Z := 8640000000000000.

(** [6.5 * 60 * 60 * 1000] in binary64 arithmetic *)
Definition yangonOffsetFloat : PrimFloat.float :=
  PrimFloat.mul (PrimFloat.mul (PrimFloat.mul 6.5%float 60%float) 60%float)
                1000%float.

Definition yangonOffset : Z := 23400000.

(** [new Date(millis)]: the time value is kept inside the range of dates,
    NaN otherwise. *)
Definition newDate (millis : num) : num :=
  match millis with
  | Int t => if (Z.abs t <=? maxTimeValue)%Z then Int t else NaN
  | NaN => NaN
  | Inf _ => NaN
  end.

Definition getUTCHours (d : num) : num :=
  match d with
  | Int t => Int ((t / msPerHour) mod 24)%Z
  | NaN => NaN
  | Inf _ => NaN
  end.

(** [a < b] on numbers *)
Definition num_ltb (a b : num) : bool :=
  match a, b with
  | Int x, Int y => (x <? y)%Z
  | Inf true, Int _ => true
  | Int _, Inf false => true
  | Inf true, Inf false => true
  | _, _ => false
  end.

(** The predicate given to [rows.filter], as a function of [dt.getTime()]. *)
Definition isBeforeNoonLocal (time : num) : bool :=
  let millis := num_add time (Int yangonOffset) in
  let local := newDate millis in
  num_ltb (getUTCHours local) (Int 12).

(** *** replyAggregates *)

Definition nl : jstring := [10%N].

Definition noDataText : jstring := lit "No data found for summary.".

(** The four code points the source text has in front of [Summary]. *)
Definition chartMark : jstring := [240%N; 376%N; 8220%N; 352%N].

Definition totalHeader : jstring :=
  chartMark ++ lit " Summary (numbers):" ++ nl.

Definition perUserHeader : jstring :=
  chartMark ++ lit " Summary (per user):" ++ nl.

(** [Number(r.amount) || 0] *)
Definition amountTotal (r : Row) : num := orZero (Some (toNumber (amount r))).

(** [Number(r.amount || 0)] *)
Definition amountPerUser (r : Row) : num :=
  toNumber (if toBoolean (amount r) then amount r else VNum (Int 0)).

(** The callback of [rows.reduce] *)
Definition addTotal (acc : obj num) (r : Row) : obj num :=
  set acc (number r) (num_add (orZero (get acc (number r))) (amountTotal r)).

Definition aggTotal (rows : list Row) : obj num := fold_left addTotal rows [].

(** A property read inside a template literal *)
Definition showProp (x : option num) : jstring :=
  match x with
  | Some n => showNum n
  | None => lit "undefined"
  end.

Definition totalLines (rows : list Row) : list jstring :=
  let agg := aggTotal rows in
  map (fun n => n ++ lit " - " ++ showProp (get agg n)) (sort (keys agg)).

(** The body of the loop over [rows] in the per-user branch.  The inner
    object is reached through [map[r.number]], so the assignment to it is
    an update of the entry of [map]. *)
Definition addPerUser (map : obj (obj num)) (r : Row) : obj (obj num) :=
  let inner := match get map (number r) with Some o => o | None => [] end in
  let map1 := set map (number r) inner in
  let sum := num_add (orZero (get inner (sender r))) (amountPerUser r) in
  set map1 (number r) (set inner (sender r) sum).

Definition aggPerUser (rows : list Row) : obj (obj num) :=
  fold_left addPerUser rows [].

Definition senderPart (e : jstring * num) : jstring :=
  fst e ++ lit ": " ++ showNum (snd e).

Definition perUserLine (map : obj (obj num)) (n : jstring) : jstring :=
  let inner := match get map n with Some o => o | None => [] end in
  n ++ lit " -> " ++ join (lit "; ") (List.map senderPart (entries inner)).

Definition perUserLines (rows : list Row) : list jstring :=
  let map := aggPerUser rows in
  List.map (perUserLine map) (sort (keys map)).

(** The text handed to [sendTelegramMessage]. *)
Definition replyAggregates (rows : list Row) (perUser : bool) : jstring :=
  match rows with
  | [] => noDataText
  | _ :: _ =>
      if negb perUser
      then totalHeader ++ join nl (totalLines rows)
      else perUserHeader ++ join nl (perUserLines rows)
  end.

End Webhook.


(* ================================================================== *)
(** * The webhook handler *)
(* ================================================================== *)

Module Handler.
Import Js.

(** The parts of a Telegram update that the handler reads.  A field that
    is absent is [None]. *)
Record From := mkFrom {
  username : option jstring;
  first_name : option jstring;
  last_name : option jstring;
  id : option Z
}.

(** [chat_id] stands for [message.chat?.id]. *)
Record Message := mkMessage {
  chat_id : option Z;
  from : option From;
  text : option jstring
}.

Record Body := mkBody {
  message : option Message;
  edited_message : option Message
}.

Record Request := mkRequest {
  method : jstring;
  body : option Body
}.

(** A row handed to [insert]. *)
Record NewRow := mkNewRow {
  number : jstring;
  amount : num;
  sender : jstring;
  row_chat_id : option Z
}.

(** What the store answers.  The handler is a function of these answers;
    the store and the transport are taken to answer rather than to throw. *)
Inductive SelectResult :=
| SelectError
| SelectData (data : option (list Webhook.Row)).

Record Store := mkStore {
  insertError : bool;
  selectAnswer : SelectResult
}.

(** What the handler does to the outside, in order. *)
Inductive effect :=
| Insert (rows : list NewRow)
| Select (chatId : option Z)
| LogError (label : jstring)
| Send (chatId : option Z) (text : jstring).

Inductive Response := MethodNotAllowed | Ok.

(** [x || ""] and [x] as the left side of [||], for a string that may be
    absent: an absent string and the empty string are both falsy. *)
Definition orEmpty (x : option jstring) : jstring :=
  match x with Some s => s | None => [] end.

(** [a || b] on strings *)
Definition orElse (a b : jstring) : jstring :=
  match a with [] => b | _ :: _ => a end.

Definition fromField (m : Message) (f : From -> option jstring) : jstring :=
  match from m with Some fr => orEmpty (f fr) | None => [] end.

(** An identifier inside a template literal *)
Definition showId (x : option Z) : jstring :=
  match x with Some z => showNum (Int z) | None => lit "undefined" end.

Definition senderOf (m : Message) : jstring :=
  orElse (fromField m username)
    (orElse (trim (fromField m first_name ++ lit " " ++ fromField m last_name))
            (lit "id_" ++ showId (match from m with
                                  | Some fr => id fr
                                  | None => None
                                  end))).

(** [s.startsWith(p)] *)
Fixpoint startsWith (p s : jstring) : bool :=
  match p, s with
  | [], _ => true
  | _ :: _, [] => false
  | x :: p', y :: s' => (x =? y)%N && startsWith p' s'
  end.

(** [toLowerCase] on the letters A to Z; other code units are kept.  The
    tokens are only compared with words made of the letters b, e, f, o,
    p, r, s, u, digits and a hyphen, and no other code unit lowers to
    one of these, so the comparisons come out as in the language. *)
Definition toLowerCase (s : jstring) : jstring :=
  map (fun c => if ((65 <=? c) && (c <=? 90))%N then (c + 32)%N else c) s.

(** [s.split(/\s+/)]: every run of white space is one separator. *)
Definition splitWs (s : jstring) : list jstring :=
  split isSpace (collapseSpaces s).

(** [arr.includes(x)] on strings *)
Definition includes (l : list jstring) (x : jstring) : bool :=
  existsb (eqb x) l.

Definition tokensOf (commandText : jstring) : list jstring :=
  map toLowerCase (tl (splitWs commandText)).

Definition flagPerUser (commandText : jstring) : bool :=
  includes (tokensOf commandText) (lit "peruser").

Definition flagBefore12 (commandText : jstring) : bool :=
  includes (tokensOf commandText) (lit "before12")
  || includes (tokensOf commandText) (lit "before-12").

(** The two code points in front of [Error while summarizing]. *)
Definition crossMark : jstring := [226%N; 338%N].

Definition errorText : jstring :=
  crossMark ++ lit " Error while summarizing. See server logs.".

Definition handleSummarize (commandText : jstring) (chatId : option Z)
  (st : Store) : list effect :=
  Select chatId ::
  match selectAnswer st with
  | SelectError => [LogError (lit "summarize error"); Send chatId errorText]
  | SelectData data =>
      let rows := match data with Some r => r | None => [] end in
      let used :=
        if flagBefore12 commandText
        then filter (fun r => Webhook.isBeforeNoonLocal (Webhook.created_at r)) rows
        else rows in
      [Send chatId (Webhook.replyAggregates used (flagPerUser commandText))]
  end.

(** The three code points in front of [Saved]. *)
Definition checkMark : jstring := [226%N; 339%N; 8230%N].

Definition savedLine (r : NewRow) : jstring :=
  number r ++ lit " - " ++ showNum (amount r).

Definition savedText (rows : list NewRow) : jstring :=
  checkMark ++ lit " Saved:" ++ Webhook.nl ++ join Webhook.nl (map savedLine rows).

Definition handler (req : Request) (st : Store) : Response * list effect :=
  if negb (eqb (method req) (lit "POST")) then (MethodNotAllowed, [])
  else
    let msg :=
      match body req with
      | Some b =>
          match message b with
          | Some m => Some m
          | None => edited_message b
          end
      | None => None
      end in
    match msg with
    | None => (Ok, [])
    | Some m =>
        let chatId := chat_id m in
        let sender := senderOf m in
        let text := trim (orEmpty (text m)) in
        if startsWith (lit "/summarize") text
        then (Ok, handleSummarize text chatId st)
        else
          match Parser.parseMessageToBets text with
          | [] => (Ok, [])
          | bets =>
              let rows :=
                map (fun b => mkNewRow (Parser.number b) (Parser.amount b)
                                       sender chatId) bets in
              (Ok,
               Insert rows
               :: (if insertError st
                   then [LogError (lit "Supabase insert error:")]
                   else [])
               ++ [Send chatId (savedText rows)])
          end
    end.

End Handler.

(* ================================================================== *)
(** * Notions used to state the properties *)
(* ================================================================== *)

Module Props.
Import Js.

(** What a run of white space becomes. *)
Definition blank (ws : jstring) : jstring :=
  match ws with [] => [] | _ :: _ => [32%N] end.

Definition fits (h : option nat) (n : nat) : Prop :=
  match h with Some m => (n <= m)%nat | None => True end.

(** The search stops extending a repetition when the bound is reached or
    when the next code unit is outside the class. *)
Definition stops (c : N -> bool) (h : option nat) (a rest : jstring) : Prop :=
  h = Some (List.length a) \/
  match rest with x :: _ => c x = false | [] => True end.

(** The language of a pattern, with the captures of a match. *)
Inductive matches : list piece -> jstring -> list jstring -> Prop :=
| matches_nil : matches [] [] []
| matches_cons p ps a rest caps :
    forallb (cls p) a = true ->
    (lo p <= List.length a)%nat ->
    fits (hi p) (List.length a) ->
    matches ps rest caps ->
    matches (p :: ps) (a ++ rest) (if cap p then a :: caps else caps).

(** What a capture of a piece looks like. *)
Definition capOf (p : piece) (a : jstring) : Prop :=
  forallb (cls p) a = true /\ (lo p <= List.length a)%nat /\
  fits (hi p) (List.length a).

(** A bet number: two decimal digits. *)
Definition twoDigits (s : jstring) : Prop :=
  List.length s = 2%nat /\ forallb isDigit s = true.

(** A part is recognised when one of the four patterns matches it once
    its white space is collapsed. *)
Definition recognized (part : jstring) : bool :=
  let p := collapseSpaces part in
  existsb (fun re => match matchRe re p with Some _ => true | None => false end)
          [Parser.reDelim; Parser.reReverse; Parser.reEquals; Parser.reSpace].

(** White space that cannot end a part: any [\s] but the line feed. *)
Definition innerSpace (c : N) : bool := isSpace c && negb (c =? 10)%N.

(** *** Aggregation *)

(** Some row has the number [n]. *)
Definition present (n : jstring) (rows : list Webhook.Row) : bool :=
  existsb (fun r => eqb (Webhook.number r) n) rows.

(** The rows of one number, in input order. *)
Definition rowsOf (n : jstring) (rows : list Webhook.Row) : list Webhook.Row :=
  filter (fun r => eqb (Webhook.number r) n) rows.

(** The names every object inherits from [Object.prototype]. *)
Definition protoNames : list jstring :=
  map lit ["__proto__"; "constructor"; "hasOwnProperty"; "isPrototypeOf";
           "propertyIsEnumerable"; "toLocaleString"; "toString"; "valueOf";
           "__defineGetter__"; "__defineSetter__"; "__lookupGetter__";
           "__lookupSetter__"]%string.

(** A key that is not an inherited name: a dictionary reads and writes it
    as an own property. *)
Definition plainKey (k : jstring) : bool := negb (existsb (eqb k) protoNames).

(** A string that cannot be a numeral: after trimming it starts with a
    code unit that is neither a digit, a sign, a dot nor the I of
    Infinity.  [Number] gives NaN on it. *)
Definition notNumeral (s : jstring) : bool :=
  match trim s with
  | [] => false
  | c :: _ => negb (isDigit c || oneOf (lit "+-.I") c)
  end.

(** The whole number an amount is, zero for every other value. *)
Definition wholePart (a : jsval) : Z :=
  match a with VNum (Int z) => z | _ => 0%Z end.

(** An amount that is a whole number. *)
Definition isWhole (a : jsval) : bool :=
  match a with VNum (Int _) => true | _ => false end.

(** An amount that is a whole number or does not coerce to a number at
    all: absent, NaN, or a string that cannot be a numeral. *)
Definition wholeOrNothing (a : jsval) : bool :=
  match a with
  | VNum (Int _) => true
  | VNum NaN => true
  | VUndefined => true
  | VStr s => notNumeral s
  | _ => false
  end.

(** What the amount of a row adds to a sum. *)
Definition contribution (r : Webhook.Row) : Z := wholePart (Webhook.amount r).

Definition sumZ (l : list Z) : Z := fold_right Z.add 0%Z l.

Definition groupSum (rows : list Webhook.Row) (n : jstring) : Z :=
  sumZ (map contribution (rowsOf n rows)).

(** The sum of the magnitudes of the amounts: while it stays within 2^53
    every sum the code forms is exact. *)
Definition absSum (rows : list Webhook.Row) : Z :=
  sumZ (map (fun r => Z.abs (contribution r)) rows).

(** The rows total mode is stated for. *)
Definition totalRow (r : Webhook.Row) : bool :=
  wholeOrNothing (Webhook.amount r) && plainKey (Webhook.number r).

(** The rows per-sender mode is stated for. *)
Definition senderRow (r : Webhook.Row) : bool :=
  isWhole (Webhook.amount r) && plainKey (Webhook.number r)
  && plainKey (Webhook.sender r).

(** The rows of one sender under one number, in input order. *)
Definition pairRows (rows : list Webhook.Row) (n s : jstring) : list Webhook.Row :=
  filter (fun r => eqb (Webhook.sender r) s) (rowsOf n rows).

(** The sum of the amounts of one sender under one number. *)
Definition pairTotal (rows : list Webhook.Row) (n s : jstring) : Z :=
  sumZ (map contribution (pairRows rows n s)).

Definition totalLine (rows : list Webhook.Row) (n : jstring) : jstring :=
  n ++ lit " - " ++ showNum (Int (groupSum rows n)).

(** The partial object one number's rows build in the per-user branch. *)
Definition innerStep (inner : obj num) (r : Webhook.Row) : obj num :=
  set inner (Webhook.sender r)
      (num_add (orZero (get inner (Webhook.sender r))) (Webhook.amountPerUser r)).

Definition innerOf (rows : list Webhook.Row) (n : jstring) : obj num :=
  fold_left innerStep (rowsOf n rows) [].

(** The elements of a list in the order of their first occurrence. *)
Fixpoint firstAppearance (l : list jstring) : list jstring :=
  match l with
  | [] => []
  | x :: l' => x :: filter (fun y => negb (eqb y x)) (firstAppearance l')
  end.

Definition sendersOf (rows : list Webhook.Row) (n : jstring) : list jstring :=
  firstAppearance (map Webhook.sender (rowsOf n rows)).

(** The running sum of one sender under one number, as the loop keeps it:
    a sum that is NaN or zero counts as zero when the next amount is added. *)
Definition pairStep (cur : option num) (r : Webhook.Row) : option num :=
  Some (num_add (orZero cur) (Webhook.amountPerUser r)).

Definition pairSum (rows : list Webhook.Row) (n s : jstring) : num :=
  match fold_left pairStep
          (filter (fun r => eqb (Webhook.sender r) s) (rowsOf n rows)) None with
  | Some v => v
  | None => Int 0
  end.

Definition perSenderLine (rows : list Webhook.Row) (n : jstring) : jstring :=
  n ++ lit " -> "
    ++ join (lit "; ")
         (map (fun s => s ++ lit ": " ++ showNum (Int (pairTotal rows n s)))
              (sendersOf rows n)).


(** A report in per-sender mode whose lines list the senders in the order
    of their first row. *)
Definition perSenderReport (rows : list Webhook.Row) : Prop :=
  exists ks,
    Webhook.replyAggregates rows true
      = Webhook.perUserHeader ++ join Webhook.nl (map (perSenderLine rows) ks) /\
    StronglySorted lt ks /\
    (forall n, In n ks <-> In n (map Webhook.number rows)).

(** The two sides of the comparison between the modes. *)
Definition sumNums (l : list num) : num := fold_left num_add l (Int 0).

Definition totalOf (rows : list Webhook.Row) (n : jstring) : option num :=
  get (Webhook.aggTotal rows) n.

Definition perSenderTotal (rows : list Webhook.Row) (n : jstring) : num :=
  sumNums (map snd (match get (Webhook.aggPerUser rows) n with
                    | Some o => o
                    | None => []
                    end)).

(** The relation a boolean order decides. *)
Definition holds {A} (le : A -> A -> bool) (a b : A) : Prop := le a b = true.

(** *** Keys and values of an object under construction *)

Definition inb (k : jstring) (ks : list jstring) : bool := existsb (eqb k) ks.

(** The keys after a write to key [k]. *)
Definition keyStep (ks : list jstring) (k : jstring) : list jstring :=
  if inb k ks then ks else ks ++ [k].

Definition valueOr (o : obj num) (k : jstring) : num :=
  match get o k with Some v => v | None => Int 0 end.

Definition isInt (v : num) : Prop := exists z, v = Int z.

Definition intOf (v : num) : Z := match v with Int z => z | _ => 0%Z end.

Definition valSum (o : obj num) : Z := sumZ (map (fun e => intOf (snd e)) o).

Definition absValSum (o : obj num) : Z :=
  sumZ (map (fun e => Z.abs (intOf (snd e))) o).

(** *** Exactness of the offset *)

(** The integer a binary64 value denotes, when it is one. *)
Definition floatToZ (f : PrimFloat.float) : option Z :=
  match Prim2SF f with
  | S754_zero _ => Some 0%Z
  | S754_finite sg m e =>
      let v := if sg then Z.neg m else Z.pos m in
      if (0 <=? e)%Z then Some (v * 2 ^ e)%Z
      else if (v mod 2 ^ (- e) =? 0)%Z then Some (v / 2 ^ (- e))%Z
      else None
  | _ => None
  end.

(** *** The numbers against the binary64 of the standard library *)

(** The binary64 value nearest to an integer. *)
Definition floatOf (z : Z) : PrimFloat.float :=
  SF2Prim (binary_normalize 53 1024 z 0 false).

(** A binary64 value without fraction as a number. *)
Definition numOfFloat (f : PrimFloat.float) : option num :=
  match Prim2SF f with
  | S754_nan => Some NaN
  | S754_infinity s => Some (Inf s)
  | _ => option_map Int (floatToZ f)
  end.

(** [fromInteger] gives what the library gives. *)
Definition roundsAlike (z : Z) : bool :=
  match numOfFloat (floatOf z) with
  | Some v => num_eqb v (fromInteger z)
  | None => false
  end.

(** [num_add] gives what the addition of binary64 gives. *)
Definition addsAlike (p : Z * Z) : bool :=
  match numOfFloat (PrimFloat.add (floatOf (fst p)) (floatOf (snd p))) with
  | Some v => num_eqb v (num_add (fromInteger (fst p)) (fromInteger (snd p)))
  | None => false
  end.

End Props.

(* ================================================================== *)
(** * Notions used to state further properties *)
(* ================================================================== *)

Module MoreProps.
Import Js Props.

(** A number that is whole and not negative, or the positive infinity. *)
Definition stake (v : num) : Prop :=
  (exists z, v = Int z /\ (0 <= z)%Z) \/ v = Inf false.

(** What [parseInt] gives on digits: never NaN and never negative. *)
Definition wholeAmount (b : Parser.Bet) : Prop := stake (Parser.amount b).

(** *** Per-sender mode on any sender strings *)

(** The order in which the senders of a number are listed: those whose
    name is an array index first, by ascending index, then the others in
    the order of their first row. *)
Definition senderOrder (rows : list Webhook.Row) (n : jstring) : list jstring :=
  sortBy (fun a b => (indexOf a <=? indexOf b)%N)
         (filter isIndexKey (sendersOf rows n))
  ++ filter (fun s => negb (isIndexKey s)) (sendersOf rows n).

Definition perSenderLineJs (rows : list Webhook.Row) (n : jstring) : jstring :=
  n ++ lit " -> "
    ++ join (lit "; ")
         (map (fun s => s ++ lit ": " ++ showNum (Int (pairTotal rows n s)))
              (senderOrder rows n)).

(** The senders named by an array index come first, in ascending order
    of the index, and the others keep the order of their first row. *)
Definition indexSendersFirst (rows : list Webhook.Row) (n : jstring) : Prop :=
  exists idx,
    senderOrder rows n
    = idx ++ filter (fun s => negb (isIndexKey s)) (sendersOf rows n) /\
    Permutation idx (filter isIndexKey (sendersOf rows n)) /\
    StronglySorted (fun a b => (indexOf a <= indexOf b)%N) idx.

Definition perSenderReportJs (rows : list Webhook.Row) : Prop :=
  exists ks,
    Webhook.replyAggregates rows true
      = Webhook.perUserHeader ++ join Webhook.nl (map (perSenderLineJs rows) ks) /\
    StronglySorted lt ks /\
    (forall n, In n ks <-> In n (map Webhook.number rows)).

(** [map[n][s]] after the loop of the per-user branch *)
Definition lookup2 (rows : list Webhook.Row) (n s : jstring) : option num :=
  match get (Webhook.aggPerUser rows) n with
  | Some o => get o s
  | None => None
  end.

(** The rows all of whose keys are read and written as own properties. *)
Definition plainRow (r : Webhook.Row) : bool :=
  plainKey (Webhook.number r) && plainKey (Webhook.sender r).

Definition msPerDay : Z := 86400000.

(** *** What a request did *)

Definition sent (effs : list Handler.effect) : list (option Z * jstring) :=
  flat_map (fun e => match e with Handler.Send c t => [(c, t)] | _ => [] end) effs.

Definition written (effs : list Handler.effect) : list (list Handler.NewRow) :=
  flat_map (fun e => match e with Handler.Insert rows => [rows] | _ => [] end) effs.

Definition queried (effs : list Handler.effect) : list (option Z) :=
  flat_map (fun e => match e with Handler.Select c => [c] | _ => [] end) effs.

(** A stored row as the data model wants it. *)
Definition wellFormedRow (r : Handler.NewRow) : Prop :=
  twoDigits (Handler.number r) /\
  stake (Handler.amount r) /\
  Handler.sender r <> [].

End MoreProps.

(* ================================================================== *)
(** * Facts about the model of the language *)
(* ================================================================== *)

Module JsFacts.
Import Js Props.

(** ** Character classes *)

Lemma digit_cases x :
  isDigit x = true ->
  In x [48; 49; 50; 51; 52; 53; 54; 55; 56; 57]%N.
Proof.
  unfold isDigit. intros H. apply andb_prop in H. destruct H as [H1 H2].
  apply N.leb_le in H1. apply N.leb_le in H2. simpl.
  assert (x = 48 \/ x = 49 \/ x = 50 \/ x = 51 \/ x = 52 \/ x = 53 \/
          x = 54 \/ x = 55 \/ x = 56 \/ x = 57)%N as D by lia.
  intuition auto.
Qed.

(** Closes a goal about one digit by running through the ten digits. *)
Ltac by_digit H :=
  apply digit_cases in H; simpl in H;
  repeat (destruct H as [H | H]; [subst; try reflexivity; try discriminate |]);
  try contradiction.

Lemma digit_not_space x : isDigit x = true -> isSpace x = false.
Proof. intros H. by_digit H. Qed.

Lemma digit_not_in x cs :
  isDigit x = true -> forallb (fun c => negb (isDigit c)) cs = true ->
  oneOf cs x = false.
Proof.
  intros Hx Hcs. unfold oneOf. destruct (existsb (N.eqb x) cs) eqn:E; auto.
  apply existsb_exists in E. destruct E as (c & Hin & Heq).
  apply N.eqb_eq in Heq. subst c.
  rewrite forallb_forall in Hcs. apply Hcs in Hin. rewrite Hx in Hin.
  discriminate.
Qed.

Lemma forallb_digit_not_space s :
  forallb isDigit s = true -> forallb (fun c => negb (isSpace c)) s = true.
Proof.
  induction s as [|x s IH]; simpl; auto. intros H.
  apply andb_prop in H. destruct H as [H1 H2].
  rewrite (digit_not_space _ H1). simpl. auto.
Qed.

(** ** Trimming, splitting, collapsing *)

Lemma dropWhile_head p x s : p x = false -> dropWhile p (x :: s) = x :: s.
Proof. intros H. simpl. now rewrite H. Qed.

Lemma takeWhile_all p s : forallb p s = true -> takeWhile p s = s.
Proof.
  induction s as [|x s IH]; simpl; auto. intros H.
  apply andb_prop in H. destruct H as [H1 H2]. rewrite H1. now rewrite IH.
Qed.

Lemma split_none sep s :
  forallb (fun c => negb (sep c)) s = true -> split sep s = [s].
Proof.
  induction s as [|x s IH]; simpl; auto. intros H.
  apply andb_prop in H. destruct H as [H1 H2].
  destruct (sep x); [discriminate|]. now rewrite IH.
Qed.

Lemma collapse_plain b s :
  forallb (fun c => negb (isSpace c)) s = true -> collapseFrom b s = s.
Proof.
  revert b. induction s as [|x s IH]; intros b H; simpl in *; auto.
  apply andb_prop in H. destruct H as [H1 H2].
  destruct (isSpace x); [discriminate|]. now rewrite IH.
Qed.

Lemma collapse_plain_app b x s t :
  forallb (fun c => negb (isSpace c)) (x :: s) = true ->
  collapseFrom b ((x :: s) ++ t) = (x :: s) ++ collapseFrom false t.
Proof.
  revert b x. induction s as [|y s IH]; intros b x H; simpl in H.
  - destruct (isSpace x) eqn:E; [discriminate|]. simpl. now rewrite E.
  - destruct (isSpace x) eqn:E; [discriminate|]. simpl in H.
    change ((x :: y :: s) ++ t) with (x :: ((y :: s) ++ t)).
    cbn [collapseFrom]. rewrite E. rewrite IH; auto.
Qed.

Lemma collapse_run ws t :
  forallb isSpace ws = true -> collapseFrom true (ws ++ t) = collapseFrom true t.
Proof.
  induction ws as [|w ws IH]; simpl; auto. intros H.
  apply andb_prop in H. destruct H as [H1 H2]. rewrite H1. auto.
Qed.

Lemma collapse_ws_then ws x t :
  forallb isSpace ws = true -> isSpace x = false ->
  collapseFrom false (ws ++ x :: t) = blank ws ++ x :: collapseFrom false t.
Proof.
  intros Hws Hx. destruct ws as [|w ws]; simpl in *.
  - now rewrite Hx.
  - apply andb_prop in Hws. destruct Hws as [H1 H2]. rewrite H1.
    rewrite (collapse_run _ _ H2). simpl. now rewrite Hx.
Qed.

Lemma blank_space ws : forallb isSpace (blank ws) = true.
Proof. now destruct ws. Qed.

(** ** The pattern matcher *)

Lemma rep_sound R c l h s (k : jstring -> jstring -> option R) r :
  rep c l h s k = Some r ->
  exists a rest,
    s = a ++ rest /\ forallb c a = true /\ (l <= List.length a)%nat /\
    fits h (List.length a) /\ k a rest = Some r.
Proof.
  revert l h k.
  assert (stop : forall l h (k : jstring -> jstring -> option R) t,
    match l with O => k [] t | S _ => None end = Some r ->
    exists a rest,
      t = a ++ rest /\ forallb c a = true /\ (l <= List.length a)%nat /\
      fits h (List.length a) /\ k a rest = Some r).
  { intros l h k t H. destruct l; [|discriminate].
    exists [], t. repeat split; auto. destruct h; simpl; auto with arith. }
  induction s as [|x s IH]; intros l h k H; simpl in H.
  - now apply stop.
  - destruct (c x && more h) eqn:E; [|now apply stop].
    destruct (rep c (pred l) (option_map pred h) s
                (fun a rest => k (x :: a) rest)) eqn:E2; [|now apply stop].
    inversion H; subst r0. apply IH in E2.
    destruct E2 as (a & rest & -> & Ha & Hl & Hh & Hk).
    apply andb_prop in E. destruct E as [Ex Em].
    exists (x :: a), rest. simpl. rewrite Ex, Ha. repeat split; auto.
    + lia.
    + destruct h as [[|m]|]; simpl in *; try discriminate; auto. lia.
Qed.

Lemma rep_greedy R c l h a rest (k : jstring -> jstring -> option R) r :
  forallb c a = true -> (l <= List.length a)%nat -> fits h (List.length a) ->
  stops c h a rest -> k a rest = Some r ->
  rep c l h (a ++ rest) k = Some r.
Proof.
  revert l h k. induction a as [|x a IH]; intros l h k Ha Hl Hh Hs Hk.
  - simpl in *. assert (l = O) by lia. subst l.
    destruct rest as [|y rest]; simpl; auto.
    destruct Hs as [Hs | Hs].
    + subst h. simpl. now rewrite andb_false_r.
    + now rewrite Hs.
  - simpl in Ha. apply andb_prop in Ha. destruct Ha as [Hx Ha].
    simpl. rewrite Hx.
    assert (Hm : more h = true).
    { destruct h as [[|m]|]; simpl in *; auto. lia. }
    rewrite Hm. simpl.
    rewrite (IH (pred l) (option_map pred h) (fun a0 rest0 => k (x :: a0) rest0));
      auto.
    + simpl in Hl. lia.
    + destruct h as [m|]; simpl in *; auto. lia.
    + destruct Hs as [Hs | Hs]; [left | right; auto].
      subst h. reflexivity.
Qed.

Lemma matchPieces_sound ps s caps :
  matchPieces ps s = Some caps -> matches ps s caps.
Proof.
  revert s caps. induction ps as [|p ps IH]; intros s caps H; simpl in H.
  - destruct s; [|discriminate]. inversion H. constructor.
  - apply rep_sound in H. destruct H as (a & rest & -> & Ha & Hl & Hh & Hk).
    destruct (matchPieces ps rest) as [caps'|] eqn:E; [|discriminate].
    inversion Hk; subst caps. constructor; auto.
Qed.

Lemma matchPieces_greedy p ps a rest caps :
  forallb (cls p) a = true ->
  (lo p <= List.length a)%nat ->
  fits (hi p) (List.length a) ->
  stops (cls p) (hi p) a rest ->
  matchPieces ps rest = Some caps ->
  matchPieces (p :: ps) (a ++ rest) = Some (if cap p then a :: caps else caps).
Proof.
  intros Ha Hl Hh Hs Hk. simpl. apply rep_greedy; auto. now rewrite Hk.
Qed.

(** Every code unit of a matched string belongs to a class of the pattern. *)
Lemma matches_units ps s caps :
  matches ps s caps ->
  Forall (fun x => existsb (fun p => cls p x) ps = true) s.
Proof.
  induction 1 as [|p ps a rest caps Ha Hl Hh Hm IH]; [constructor|].
  apply Forall_app. split.
  - rewrite Forall_forall. intros x Hx. simpl.
    rewrite forallb_forall in Ha. now rewrite (Ha _ Hx).
  - eapply Forall_impl; [|exact IH]. simpl. intros x Hx. rewrite Hx.
    apply orb_true_r.
Qed.

Lemma matches_caps ps s caps :
  matches ps s caps -> Forall2 capOf (filter cap ps) caps.
Proof.
  induction 1 as [|p ps a rest caps Ha Hl Hh Hm IH]; [constructor|].
  simpl. destruct (cap p); auto. constructor; auto. repeat split; auto.
Qed.

Lemma matchRe_caps ps s m :
  matchRe ps s = Some m ->
  exists caps, m = s :: caps /\ Forall2 capOf (filter cap ps) caps.
Proof.
  unfold matchRe. destruct (matchPieces ps s) as [caps|] eqn:E; [|discriminate].
  intros H. inversion H. exists caps. split; auto.
  eapply matches_caps, matchPieces_sound, E.
Qed.

Lemma matchRe_none ps s x :
  In x s -> existsb (fun p => cls p x) ps = false -> matchRe ps s = None.
Proof.
  intros Hin Hx. unfold matchRe.
  destruct (matchPieces ps s) as [caps|] eqn:E; auto.
  apply matchPieces_sound, matches_units in E.
  rewrite Forall_forall in E. apply E in Hin. congruence.
Qed.

(** ** Reading digits *)

Lemma signOf_digit x ds : isDigit x = true -> signOf (x :: ds) = (1%Z, x :: ds).
Proof. intros H. by_digit H. Qed.

Lemma parseInt10_digits ds :
  ds <> [] -> forallb isDigit ds = true ->
  parseInt10 ds = fromInteger (digitsValue ds).
Proof.
  intros Hne Hd. destruct ds as [|x ds]; [congruence|].
  unfold parseInt10. pose proof Hd as Hd'. simpl in Hd.
  apply andb_prop in Hd. destruct Hd as [Hx Hds].
  rewrite (dropWhile_head _ _ _ (digit_not_space _ Hx)).
  rewrite (signOf_digit _ ds Hx). cbn [fst snd].
  rewrite (takeWhile_all isDigit (x :: ds)) by exact Hd'.
  now rewrite Z.mul_1_l.
Qed.

Lemma fromInteger_safe_pos z :
  (0 <= z)%Z -> (z <= maxSafe)%Z -> fromInteger z = Int z.
Proof.
  intros H0 H. unfold fromInteger.
  assert (E : (Z.abs z <=? maxSafe)%Z = true) by (apply Z.leb_le; lia).
  now rewrite E.
Qed.

Lemma digitVal_nonneg x : isDigit x = true -> (0 <= digitVal x <= 9)%Z.
Proof.
  intros H. unfold isDigit in H. apply andb_prop in H. destruct H as [H1 H2].
  apply N.leb_le in H1. apply N.leb_le in H2. unfold digitVal. lia.
Qed.

Lemma digitsFold_nonneg ds acc :
  forallb isDigit ds = true -> (0 <= acc)%Z ->
  (0 <= fold_left (fun a c => (10 * a + digitVal c)%Z) ds acc)%Z.
Proof.
  revert acc. induction ds as [|x ds IH]; intros acc Hd Ha; cbn [fold_left]; auto.
  simpl in Hd. apply andb_prop in Hd. destruct Hd as [Hx Hds].
  apply IH; [exact Hds|]. pose proof (digitVal_nonneg x Hx). lia.
Qed.

Lemma digitsValue_nonneg ds :
  forallb isDigit ds = true -> (0 <= digitsValue ds)%Z.
Proof. intros H. apply digitsFold_nonneg; auto. lia. Qed.

(** Up to 2^53 the digits denote their own value. *)
Lemma digits_exact ds :
  forallb isDigit ds = true -> (digitsValue ds <= maxSafe)%Z ->
  fromInteger (digitsValue ds) = Int (digitsValue ds).
Proof.
  intros Hd Hb. apply fromInteger_safe_pos; [now apply digitsValue_nonneg | exact Hb].
Qed.

(** ** Rounding *)

Lemma fromInteger_safe z : (Z.abs z <= maxSafe)%Z -> fromInteger z = Int z.
Proof.
  intros H. unfold fromInteger. apply Z.leb_le in H. now rewrite H.
Qed.

Lemma num_add_safe x y :
  (Z.abs (x + y) <= maxSafe)%Z -> num_add (Int x) (Int y) = Int (x + y).
Proof. intros H. simpl. now apply fromInteger_safe. Qed.

(** Rounding keeps the sign: a number that is not negative stays so. *)
Lemma fromInteger_nonneg z :
  (0 <= z)%Z ->
  (exists v, fromInteger z = Int v /\ (0 <= v)%Z) \/ fromInteger z = Inf false.
Proof.
  intros Hz. unfold fromInteger.
  destruct (Z.abs z <=? maxSafe)%Z; [left; eauto|].
  unfold roundBig.
  match goal with |- context [if ?c then Inf _ else _] => destruct c end.
  - right. f_equal. apply Z.ltb_ge. exact Hz.
  - left. eexists. split; [reflexivity|].
    apply Z.mul_nonneg_nonneg; [apply Z.sgn_nonneg; exact Hz|].
    apply Z.mul_nonneg_nonneg; [|apply Z.pow_nonneg; lia].
    assert (Hq : (0 <= Z.abs z / 2 ^ (Z.log2 (Z.abs z) - 52))%Z).
    { pose proof (Z.pow_nonneg 2 (Z.log2 (Z.abs z) - 52)) as Hp.
      destruct (Z.eq_dec (2 ^ (Z.log2 (Z.abs z) - 52)) 0) as [E | E].
      - rewrite E, Z.div_0_r. lia.
      - apply Z.div_pos; [apply Z.abs_nonneg | lia]. }
    match goal with |- context [if ?c then _ else _] => destruct c end; lia.
Qed.

(** Beyond 2^53 the rounded value is not below 2^53 in magnitude. *)
Lemma fromInteger_big z v :
  (maxSafe < Z.abs z)%Z -> fromInteger z = Int v -> (maxSafe <= Z.abs v)%Z.
Proof.
  intros Hz. unfold fromInteger.
  destruct (Z.leb_spec (Z.abs z) maxSafe) as [H | H]; [lia|].
  unfold roundBig. set (a := Z.abs z) in *.
  set (shift := (Z.log2 a - 52)%Z).
  match goal with |- context [if ?c then Inf _ else _] => destruct c end;
    [discriminate|].
  intros E. inversion E as [Ev]. clear E.
  assert (Ha : (0 < a)%Z) by (unfold maxSafe in Hz; lia).
  assert (Hlog : (53 <= Z.log2 a)%Z).
  { apply Z.log2_le_pow2; [exact Ha|]. unfold maxSafe in Hz.
    change (2 ^ 53)%Z with 9007199254740992%Z. lia. }
  assert (Hs : (1 <= shift)%Z) by (unfold shift; lia).
  destruct (Z.log2_spec a Ha) as [Hlo _].
  assert (Hq : (2 ^ 52 <= a / 2 ^ shift)%Z).
  { apply Z.div_le_lower_bound; [apply Z.pow_pos_nonneg; lia|].
    rewrite <- Z.pow_add_r by lia.
    replace (shift + 52)%Z with (Z.log2 a) by (unfold shift; lia). exact Hlo. }
  assert (Hp : (2 <= 2 ^ shift)%Z).
  { change 2%Z with (2 ^ 1)%Z at 1. apply Z.pow_le_mono_r; lia. }
  assert (Hv : (maxSafe <= (a / 2 ^ shift) * 2 ^ shift)%Z).
  { unfold maxSafe. change 9007199254740992%Z with (2 ^ 52 * 2)%Z.
    apply Z.mul_le_mono_nonneg; lia. }
  assert (Hv' : (maxSafe <=
                 (if ((2 ^ (shift - 1) <? a mod 2 ^ shift)
                      || ((a mod 2 ^ shift =? 2 ^ (shift - 1))
                          && Z.odd (a / 2 ^ shift)))%Z
                  then a / 2 ^ shift + 1 else a / 2 ^ shift) * 2 ^ shift)%Z).
  { match goal with |- context [if ?c then _ else _] => destruct c end;
      [|exact Hv].
    rewrite Z.mul_add_distr_r. lia. }
  rewrite Z.abs_mul.
  assert (Hsg : Z.abs (Z.sgn z) = 1%Z).
  { destruct z; simpl in *; try reflexivity. unfold a in Ha. simpl in Ha. lia. }
  rewrite Hsg, Z.mul_1_l. unfold maxSafe in *. lia.
Qed.

(** Rounding and printing on known values. *)
Example fromInteger_tie_to_even :
  fromInteger 9007199254740993 = Int 9007199254740992 /\
  fromInteger 9007199254740995 = Int 9007199254740996 /\
  fromInteger (-9007199254740993) = Int (-9007199254740992).
Proof. repeat split; reflexivity. Qed.

Example fromInteger_overflow :
  fromInteger (10 ^ 400) = Inf false /\ fromInteger (- 10 ^ 400) = Inf true /\
  showNum (Inf false) = lit "Infinity".
Proof. repeat split; vm_compute; reflexivity. Qed.

Example fromInteger_binary64 :
  forallb roundsAlike
    [0; 1; -1; 500; 9007199254740992; 9007199254740993; 9007199254740995;
     -9007199254740993; 2 ^ 64 + 4097; 2 ^ 64 + 2048; 2 ^ 64 + 6144;
     12345678901234567891; 10 ^ 23; - 10 ^ 23; 10 ^ 308 * 17;
     2 ^ 1024 - 2 ^ 970 - 1; 2 ^ 1024 - 2 ^ 970; 2 ^ 1024; 10 ^ 400;
     - 10 ^ 400]%Z = true.
Proof. vm_compute. reflexivity. Qed.

Example num_add_binary64 :
  forallb addsAlike
    [(1, 1); (500, -500); (9007199254740992, 1); (9007199254740992, 3);
     (9007199254740994, 1); (-9007199254740992, -1);
     (9007199254740992, -1); (10 ^ 22, 10 ^ 22); (10 ^ 22, 1);
     (12345678901234567891, 987654321987654321);
     (2 ^ 1023, 2 ^ 1023); (- 2 ^ 1023, - 2 ^ 1023);
     (2 ^ 1023, 2 ^ 1023 - 2 ^ 970); (10 ^ 400, 1); (10 ^ 400, - 10 ^ 400)]%Z
  = true.
Proof. vm_compute. reflexivity. Qed.

Example showNum_large :
  showNum (fromInteger (2 ^ 64)) = lit "18446744073709552000" /\
  showNum (fromInteger (10 ^ 21)) = lit "1e+21" /\
  showNum (fromInteger (2 ^ 70)) = lit "1.1805916207174113e+21" /\
  showNum (fromInteger 123456789012345678) = lit "123456789012345680" /\
  showNum (Int (-42)) = lit "-42".
Proof. repeat split; vm_compute; reflexivity. Qed.

End JsFacts.

(* ================================================================== *)
(** * Properties of the parser *)
(* ================================================================== *)

Module ParserSpec.
Import Js Props JsFacts Parser.

(** ** The loop and the parts *)

Lemma fold_bets (f : jstring -> list Bet) parts acc :
  fold_left (fun bets part => bets ++ f part) parts acc
  = acc ++ flat_map f parts.
Proof.
  revert acc. induction parts as [|p parts IH]; intros acc; simpl.
  - now rewrite app_nil_r.
  - rewrite IH. now rewrite app_assoc.
Qed.

Lemma parse_flat text :
  parseMessageToBets text = flat_map betsOfPart (partsOf text).
Proof.
  destruct text as [|x text]; [reflexivity|].
  unfold parseMessageToBets. now rewrite fold_bets.
Qed.

Lemma trim_id s :
  match s with x :: _ => isSpace x = false | [] => True end ->
  match rev s with y :: _ => isSpace y = false | [] => True end ->
  trim s = s.
Proof.
  intros Hh Hl. unfold trim. destruct s as [|x s]; [reflexivity|].
  rewrite (dropWhile_head _ _ _ Hh).
  destruct (rev (x :: s)) as [|y t] eqn:E.
  - simpl. rewrite <- (rev_involutive (x :: s)), E. reflexivity.
  - rewrite (dropWhile_head _ _ _ Hl), <- E. apply rev_involutive.
Qed.

(** A text that is one part already. *)
Lemma parse_one_part s :
  s <> [] ->
  forallb (fun c => negb (isSeparator c)) s = true ->
  trim s = s ->
  parseMessageToBets s = betsOfPart s.
Proof.
  intros Hne Hsep Htrim. rewrite parse_flat. unfold partsOf.
  rewrite (split_none _ _ Hsep). simpl. rewrite Htrim.
  destruct s; [congruence|]. simpl. apply app_nil_r.
Qed.

Lemma digit_not_separator x : isDigit x = true -> isSeparator x = false.
Proof. intros H. by_digit H. Qed.

Lemma innerSpace_not_separator x : innerSpace x = true -> isSeparator x = false.
Proof.
  unfold innerSpace, isSeparator, oneOf. intros H.
  apply andb_prop in H. destruct H as [Hs Hn]. simpl.
  destruct (N.eqb_spec x 10); [discriminate|].
  destruct (N.eqb_spec x 44); [subst; discriminate|]. reflexivity.
Qed.

Lemma innerSpace_space s :
  forallb innerSpace s = true -> forallb isSpace s = true.
Proof.
  induction s as [|x s IH]; simpl; auto. intros H.
  apply andb_prop in H. destruct H as [H1 H2].
  unfold innerSpace in H1. apply andb_prop in H1. destruct H1 as [H1 _].
  rewrite H1. auto.
Qed.

Lemma forallb_impl {A} (p q : A -> bool) l :
  (forall x, p x = true -> q x = true) ->
  forallb p l = true -> forallb q l = true.
Proof.
  intros Hpq. induction l as [|x l IH]; simpl; auto. intros H.
  apply andb_prop in H. destruct H as [H1 H2]. rewrite (Hpq _ H1). auto.
Qed.

Lemma digits_no_separator s :
  forallb isDigit s = true ->
  forallb (fun c => negb (isSeparator c)) s = true.
Proof.
  apply forallb_impl. intros x H. now rewrite (digit_not_separator _ H).
Qed.

Lemma spaces_no_separator s :
  forallb innerSpace s = true ->
  forallb (fun c => negb (isSeparator c)) s = true.
Proof.
  apply forallb_impl. intros x H. now rewrite (innerSpace_not_separator _ H).
Qed.

(** ** The parser on sample messages *)

Example parse_dash :
  parseMessageToBets (lit "22-500") = [mkBet (lit "22") (Int 500)].
Proof. reflexivity. Qed.

Example parse_one_digit :
  parseMessageToBets (lit "5-500") = [mkBet (lit "05") (Int 500)].
Proof. reflexivity. Qed.

Example parse_equal_digits_reverse :
  parseMessageToBets (lit "11 R 500")
  = [mkBet (lit "11") (Int 500); mkBet (lit "11") (Int 500)].
Proof. reflexivity. Qed.

Example parse_two_lines :
  parseMessageToBets (lit "22=500" ++ [10%N] ++ lit "10 300")
  = [mkBet (lit "22") (Int 500); mkBet (lit "10") (Int 300)].
Proof. reflexivity. Qed.

(** Two digits alone: the search gives one digit back to the amount. *)
Example parse_two_digits_alone :
  parseMessageToBets (lit "22") = [mkBet (lit "02") (Int 2)].
Proof. reflexivity. Qed.

Example parse_mixed :
  parseMessageToBets (lit "7 d 12, what ,, 15r20,9")
  = [mkBet (lit "07") (Int 12); mkBet (lit "15") (Int 20);
     mkBet (lit "51") (Int 20)].
Proof. reflexivity. Qed.

(** ** Numbers of bets *)

Lemma pad2_two a : capOf num12 a -> twoDigits (pad2 a).
Proof.
  intros (Hd & Hl & Hh). simpl in *. unfold pad2, twoDigits.
  destruct a as [|x [|y [|z a]]]; simpl in *; try lia; auto.
Qed.

Lemma reverse2_rev s : List.length s = 2%nat -> reverse2 s = rev s.
Proof. intros H. unfold reverse2, padStart2. now rewrite H. Qed.

Lemma reverse2_two s : twoDigits s -> twoDigits (reverse2 s).
Proof.
  intros [Hl Hd]. rewrite (reverse2_rev _ Hl).
  destruct s as [|x [|y [|z s]]]; simpl in *; try discriminate.
  apply andb_prop in Hd. destruct Hd as [Hx Hy]. rewrite andb_true_r in Hy.
  unfold twoDigits. simpl. now rewrite Hx, Hy.
Qed.

Lemma matchRe_two ps s m :
  filter cap ps = [num12; digits] ->
  matchRe ps s = Some m ->
  exists a b, m = [s; a; b] /\ capOf num12 a /\ capOf digits b.
Proof.
  intros Hf H. apply matchRe_caps in H. destruct H as (caps & -> & Hc).
  rewrite Hf in Hc. inversion Hc as [|p a ps' caps' Ha Hc' E1 E2]; subst.
  inversion Hc' as [|p b ps' caps'' Hb Hc'' E1 E2]; subst.
  inversion Hc''; subst. exists a, b. auto.
Qed.

Lemma betsOfPart_numbers part :
  Forall (fun b => twoDigits (number b)) (betsOfPart part).
Proof.
  assert (one : forall a n, capOf num12 a ->
            Forall (fun b => twoDigits (number b)) [mkBet (pad2 a) n]).
  { intros a n Ha. constructor; [|constructor]. now apply pad2_two. }
  unfold betsOfPart.
  destruct (matchRe reDelim _) as [m|] eqn:E1.
  { apply matchRe_two in E1; [|reflexivity].
    destruct E1 as (a & b & -> & Ha & Hb). now apply one. }
  destruct (matchRe reReverse _) as [m|] eqn:E2.
  { apply matchRe_two in E2; [|reflexivity].
    destruct E2 as (a & b & -> & Ha & Hb).
    constructor; [now apply pad2_two|].
    constructor; [|constructor]. now apply reverse2_two, pad2_two. }
  destruct (matchRe reEquals _) as [m|] eqn:E3.
  { apply matchRe_two in E3; [|reflexivity].
    destruct E3 as (a & b & -> & Ha & Hb). now apply one. }
  destruct (matchRe reSpace _) as [m|] eqn:E4.
  { apply matchRe_two in E4; [|reflexivity].
    destruct E4 as (a & b & -> & Ha & Hb). now apply one. }
  constructor.
Qed.

(** C9. Every bet that [parseMessageToBets] returns, whichever pattern
    produced it, has a number made of exactly two decimal digits; [pad2]
    puts one zero in front of a one-character number and leaves a
    two-character number as it is. *)
Theorem bet_number_two_digits :
  (forall text,
     Forall (fun b => twoDigits (number b)) (parseMessageToBets text)) /\
  (forall c, pad2 [c] = [48%N; c]) /\
  (forall c1 c2, pad2 [c1; c2] = [c1; c2]).
Proof.
  split; [|split; reflexivity].
  intros text. rewrite parse_flat. rewrite Forall_forall. intros b Hb.
  apply in_flat_map in Hb. destruct Hb as (part & _ & Hb).
  pose proof (betsOfPart_numbers part) as H. rewrite Forall_forall in H.
  now apply H.
Qed.

(** ** One part, one pattern *)

Lemma head_digit_not_space ds :
  forallb isDigit ds = true ->
  match ds with x :: _ => isSpace x = false | [] => True end.
Proof.
  destruct ds as [|x ds]; simpl; auto. intros H.
  apply andb_prop in H. destruct H as [H _]. now apply digit_not_space.
Qed.

Lemma last_digit_not_space pre ds :
  ds <> [] -> forallb isDigit ds = true ->
  match rev (pre ++ ds) with y :: _ => isSpace y = false | [] => True end.
Proof.
  intros Hne Hd. rewrite rev_app_distr.
  destruct (rev ds) as [|y t] eqn:E.
  - apply (f_equal (@rev N)) in E. rewrite rev_involutive in E. now subst.
  - simpl. apply digit_not_space. rewrite forallb_forall in Hd. apply Hd.
    apply in_rev. rewrite E. now left.
Qed.

(** The first pattern on two digits followed by digits only. *)
Lemma match_concatenated d1 d2 ds :
  isDigit d1 = true -> isDigit d2 = true ->
  ds <> [] -> forallb isDigit ds = true ->
  matchRe reDelim (d1 :: d2 :: ds) = Some [d1 :: d2 :: ds; [d1; d2]; ds].
Proof.
  intros H1 H2 Hne Hd. unfold matchRe.
  assert (Hsp := head_digit_not_space ds Hd).
  destruct ds as [|y ds']; [congruence|].
  assert (Hy : isDigit y = true).
  { simpl in Hd. apply andb_prop in Hd. tauto. }
  assert (E : matchPieces reDelim
                ([d1; d2] ++ [] ++ [] ++ [] ++ (y :: ds') ++ [])
              = Some [[d1; d2]; y :: ds']).
  { unfold reDelim.
    apply (matchPieces_greedy num12);
      [simpl; now rewrite H1, H2 | simpl; lia | simpl; lia | now left |].
    apply (matchPieces_greedy spaces _ []);
      [reflexivity | simpl; lia | exact I | now right |].
    apply (matchPieces_greedy (optOf "-_dD") _ []);
      [reflexivity | simpl; lia | simpl; lia | |].
    { right. apply digit_not_in; auto. }
    apply (matchPieces_greedy spaces _ []);
      [reflexivity | simpl; lia | exact I | now right |].
    apply (matchPieces_greedy digits _ (y :: ds'));
      [exact Hd | simpl; lia | exact I | now right | reflexivity]. }
  simpl app in E. rewrite app_nil_r in E. now rewrite E.
Qed.

(** C7. A part made of two digits immediately followed by a digit
    sequence, such as [22500], is taken by the first pattern: the two
    leading digits are the number and the remaining digits the amount,
    which is the number the digits denote, exactly up to 2^53 and rounded
    to binary64 beyond. *)
Theorem concatenation_accepted d1 d2 ds :
  isDigit d1 = true -> isDigit d2 = true ->
  ds <> [] -> forallb isDigit ds = true ->
  matchRe reDelim (collapseSpaces (d1 :: d2 :: ds))
    = Some [d1 :: d2 :: ds; [d1; d2]; ds] /\
  parseMessageToBets (d1 :: d2 :: ds)
    = [mkBet [d1; d2] (fromInteger (digitsValue ds))] /\
  ((digitsValue ds <= maxSafe)%Z ->
   parseMessageToBets (d1 :: d2 :: ds)
   = [mkBet [d1; d2] (Int (digitsValue ds))]).
Proof.
  intros H1 H2 Hne Hd.
  assert (Hsafe : (digitsValue ds <= maxSafe)%Z ->
                  fromInteger (digitsValue ds) = Int (digitsValue ds))
    by (now apply digits_exact).
  cut (matchRe reDelim (collapseSpaces (d1 :: d2 :: ds))
         = Some [d1 :: d2 :: ds; [d1; d2]; ds] /\
       parseMessageToBets (d1 :: d2 :: ds)
         = [mkBet [d1; d2] (fromInteger (digitsValue ds))]).
  { intros [A B]. repeat split; auto. intros Hb. now rewrite B, (Hsafe Hb). }
  assert (Hall : forallb isDigit (d1 :: d2 :: ds) = true).
  { simpl. now rewrite H1, H2. }
  assert (Hc : collapseSpaces (d1 :: d2 :: ds) = d1 :: d2 :: ds).
  { apply collapse_plain, forallb_digit_not_space, Hall. }
  rewrite Hc. split; [now apply match_concatenated|].
  rewrite parse_one_part.
  - unfold betsOfPart. rewrite Hc, (match_concatenated _ _ _ H1 H2 Hne Hd).
    unfold idx. simpl nth. now rewrite (parseInt10_digits _ Hne Hd).
  - discriminate.
  - now apply digits_no_separator.
  - apply trim_id.
    + now apply digit_not_space.
    + apply (last_digit_not_space [d1; d2] ds Hne Hd).
Qed.

(** [22500] is number 22, amount 500. *)
Lemma concatenation_accepted_22500 :
  parseMessageToBets (lit "22500") = [mkBet (lit "22") (Int 500)].
Proof.
  apply (proj2 (proj2 (concatenation_accepted 50 50 (lit "500")
                         eq_refl eq_refl ltac:(discriminate) eq_refl))).
  vm_compute. discriminate.
Defined.

Lemma reverse_letter r :
  oneOf (lit "rR") r = true -> r = 114%N \/ r = 82%N.
Proof.
  unfold oneOf. simpl. intros H.
  destruct (N.eqb_spec r 114); auto. destruct (N.eqb_spec r 82); auto.
  discriminate.
Qed.

(** The second pattern on a collapsed reverse-bet part. *)
Lemma match_reverse d s1 r s2 ds :
  (1 <= List.length d <= 2)%nat -> forallb isDigit d = true ->
  forallb isSpace s1 = true -> oneOf (lit "rR") r = true ->
  forallb isSpace s2 = true ->
  ds <> [] -> forallb isDigit ds = true ->
  matchPieces reReverse (d ++ s1 ++ [r] ++ s2 ++ ds) = Some [d; ds].
Proof.
  intros Hl Hd Hs1 Hr Hs2 Hne Hds.
  assert (Hsp := head_digit_not_space ds Hds).
  assert (Hr' := reverse_letter r Hr).
  assert (Hrd : isDigit r = false) by (destruct Hr'; subst; reflexivity).
  assert (Hrs : isSpace r = false) by (destruct Hr'; subst; reflexivity).
  replace (d ++ s1 ++ [r] ++ s2 ++ ds) with (d ++ s1 ++ [r] ++ s2 ++ ds ++ [])
    by now rewrite app_nil_r.
  unfold reReverse.
  apply (matchPieces_greedy num12); simpl cls; simpl lo; simpl hi;
    [exact Hd | lia | simpl; lia | |].
  { right. destruct s1 as [|w s1]; simpl; auto.
    simpl in Hs1. apply andb_prop in Hs1. destruct Hs1 as [Hw _].
    destruct (isDigit w) eqn:E; auto.
    rewrite (digit_not_space _ E) in Hw. discriminate. }
  apply (matchPieces_greedy spaces); simpl cls; simpl lo; simpl hi;
    [exact Hs1 | lia | exact I | now right |].
  apply (matchPieces_greedy (oneOfP "rR") _ [r]); simpl cls; simpl lo; simpl hi;
    [cbn [forallb]; now rewrite Hr | simpl; lia | simpl; lia | now left |].
  apply (matchPieces_greedy spaces); simpl cls; simpl lo; simpl hi;
    [exact Hs2 | lia | exact I | |].
  { right. rewrite app_nil_r. destruct ds; [congruence | exact Hsp]. }
  apply (matchPieces_greedy digits _ ds []); simpl cls; simpl lo; simpl hi;
    [exact Hds | destruct ds; [congruence | simpl; lia] | exact I | now right
    | reflexivity].
Qed.

Lemma collapse_reverse d s1 r s2 ds :
  d <> [] -> forallb isDigit d = true ->
  forallb isSpace s1 = true -> isSpace r = false ->
  forallb isSpace s2 = true ->
  ds <> [] -> forallb isDigit ds = true ->
  collapseSpaces (d ++ s1 ++ [r] ++ s2 ++ ds)
  = d ++ blank s1 ++ [r] ++ blank s2 ++ ds.
Proof.
  intros Hd0 Hd Hs1 Hr Hs2 Hne Hds. unfold collapseSpaces.
  destruct d as [|x d]; [congruence|]. destruct ds as [|y ds]; [congruence|].
  rewrite collapse_plain_app by now apply forallb_digit_not_space.
  change ([r] ++ s2 ++ y :: ds) with (r :: s2 ++ y :: ds).
  rewrite (collapse_ws_then s1 r _ Hs1 Hr).
  pose proof (forallb_digit_not_space _ Hds) as Hn.
  simpl in Hn. apply andb_prop in Hn. destruct Hn as [Hy Hn].
  rewrite (collapse_ws_then s2 y ds Hs2) by now destruct (isSpace y).
  now rewrite (collapse_plain false ds Hn).
Qed.

(** C5. A part made of a one- or two-digit number, the letter r or R with
    optional white space on either side, and a digit sequence gives exactly
    two bets, one after the other: the zero-padded number first, then the
    reversal of its two characters, both with the same amount, the number
    the digits denote (exactly up to 2^53, rounded to binary64 beyond).
    For a number with two equal digits the two bets are the same. *)
Theorem reverse_bet_pair d s1 r s2 ds :
  (1 <= List.length d <= 2)%nat -> forallb isDigit d = true ->
  forallb innerSpace s1 = true -> oneOf (lit "rR") r = true ->
  forallb innerSpace s2 = true ->
  ds <> [] -> forallb isDigit ds = true ->
  let part := d ++ s1 ++ [r] ++ s2 ++ ds in
  let both := [mkBet (pad2 d) (fromInteger (digitsValue ds));
               mkBet (rev (pad2 d)) (fromInteger (digitsValue ds))] in
  betsOfPart part = both /\
  parseMessageToBets part = both /\
  reverse2 (pad2 d) = rev (pad2 d) /\
  twoDigits (pad2 d) /\
  ((digitsValue ds <= maxSafe)%Z ->
   fromInteger (digitsValue ds) = Int (digitsValue ds)).
Proof.
  intros Hl Hd Hi1 Hr Hi2 Hne Hds part both.
  assert (Hsafe : (digitsValue ds <= maxSafe)%Z ->
                  fromInteger (digitsValue ds) = Int (digitsValue ds))
    by (now apply digits_exact).
  assert (Hs1 := innerSpace_space _ Hi1).
  assert (Hs2 := innerSpace_space _ Hi2).
  assert (Hr' := reverse_letter r Hr).
  assert (Hrs : isSpace r = false) by (destruct Hr'; subst; reflexivity).
  assert (Hd0 : d <> []) by (destruct d; simpl in Hl; [lia | discriminate]).
  assert (Hpad : twoDigits (pad2 d)).
  { apply pad2_two. repeat split; simpl; auto; lia. }
  assert (Hrev : reverse2 (pad2 d) = rev (pad2 d)).
  { apply reverse2_rev, Hpad. }
  assert (Hbets : betsOfPart part = both).
  { unfold betsOfPart, part.
    rewrite (collapse_reverse d s1 r s2 ds) by assumption.
    rewrite (matchRe_none reDelim _ r).
    - unfold matchRe.
      rewrite (match_reverse d (blank s1) r (blank s2) ds)
        by (auto using blank_space).
      unfold idx. simpl nth.
      now rewrite Hrev, (parseInt10_digits _ Hne Hds).
    - apply in_or_app. right. apply in_or_app. right. now left.
    - destruct Hr'; subst; reflexivity. }
  split; [exact Hbets|]. split; [|repeat split; auto; apply Hpad].
  rewrite parse_one_part; auto.
  - unfold part. destruct d; [congruence | discriminate].
  - unfold part. rewrite !forallb_app.
    rewrite (digits_no_separator _ Hd), (spaces_no_separator _ Hi1),
            (spaces_no_separator _ Hi2), (digits_no_separator _ Hds).
    simpl. destruct Hr'; subst; reflexivity.
  - apply trim_id.
    + unfold part. destruct d as [|x d]; [congruence|]. simpl in *.
      apply andb_prop in Hd. destruct Hd as [Hx _]. now apply digit_not_space.
    + unfold part. rewrite !app_assoc. now apply last_digit_not_space.
Qed.

(** [15r500] stakes 500 on 15 and on 51. *)
Lemma reverse_bet_pair_15r500 :
  parseMessageToBets (lit "15r500")
  = [mkBet (lit "15") (Int 500); mkBet (lit "51") (Int 500)].
Proof.
  apply (reverse_bet_pair (lit "15") [] 114 [] (lit "500"));
    try reflexivity; try discriminate. simpl. lia.
Defined.

Lemma recognized_iff part : recognized part = false <-> betsOfPart part = [].
Proof.
  unfold recognized, betsOfPart. simpl.
  destruct (matchRe reDelim _); simpl; [split; discriminate|].
  destruct (matchRe reReverse _); simpl; [split; discriminate|].
  destruct (matchRe reEquals _); simpl; [split; discriminate|].
  destruct (matchRe reSpace _); simpl; [split; discriminate|].
  split; reflexivity.
Qed.

(** C8. [parseMessageToBets] is a total function from texts to sequences
    of bets: the result is the bets of the parts of the text, in order; a
    part contributes nothing exactly when none of the four patterns
    matches it; a text all of whose parts are unrecognised gives the empty
    sequence. *)
Theorem parse_total text :
  parseMessageToBets text = flat_map betsOfPart (partsOf text) /\
  (forall part, recognized part = false <-> betsOfPart part = []) /\
  (forallb (fun p => negb (recognized p)) (partsOf text) = true ->
   parseMessageToBets text = []).
Proof.
  split; [apply parse_flat|]. split; [apply recognized_iff|].
  rewrite parse_flat. induction (partsOf text) as [|p ps IH]; simpl; auto.
  intros H. apply andb_prop in H. destruct H as [Hp Hps].
  apply negb_true_iff, recognized_iff in Hp. rewrite Hp. simpl. auto.
Qed.

(** [hello] has one part, which no pattern matches. *)
Lemma parse_total_hello : parseMessageToBets (lit "hello") = [].
Proof.
  apply (proj2 (proj2 (parse_total (lit "hello")))). reflexivity.
Defined.

Lemma parse_empty : parseMessageToBets (lit "") = [].
Proof. reflexivity. Qed.

End ParserSpec.

(* ================================================================== *)
(** * Facts about string order, sorting and objects *)
(* ================================================================== *)

Module ObjFacts.
Import Js Props.

(** ** Equality and order of strings *)

Lemma eqb_eq a b : eqb a b = true <-> a = b.
Proof. unfold eqb. destruct (jstring_eq_dec a b); split; congruence. Qed.

Lemma eqb_refl a : eqb a a = true.
Proof. now apply eqb_eq. Qed.

Lemma eqb_neq a b : eqb a b = false <-> a <> b.
Proof. unfold eqb. destruct (jstring_eq_dec a b); split; congruence. Qed.

Lemma eqb_sym a b : eqb a b = eqb b a.
Proof.
  destruct (eqb a b) eqn:E.
  - apply eqb_eq in E. subst. symmetry. apply eqb_refl.
  - apply eqb_neq in E. symmetry. apply eqb_neq. congruence.
Qed.

Lemma compare_eq a b : compare a b = Eq -> a = b.
Proof.
  revert b. induction a as [|x a IH]; intros [|y b]; simpl; try discriminate; auto.
  destruct (N.compare_spec x y) as [Hxy|Hxy|Hxy]; try discriminate.
  intros Hc. subst. f_equal. auto.
Qed.

Lemma compare_antisym a b : compare b a = CompOpp (compare a b).
Proof.
  revert b. induction a as [|x a IH]; intros [|y b]; simpl; auto.
  rewrite (N.compare_antisym x y).
  destruct (N.compare x y); simpl; auto.
Qed.

Lemma leb_total a b : leb a b = true \/ leb b a = true.
Proof.
  unfold leb. rewrite (compare_antisym a b).
  destruct (compare a b); simpl; auto.
Qed.

Lemma leb_trans a b c : leb a b = true -> leb b c = true -> leb a c = true.
Proof.
  unfold leb. revert b c.
  induction a as [|x a IH]; intros [|y b] [|z c]; simpl; try congruence; auto.
  destruct (N.compare_spec x y), (N.compare_spec y z), (N.compare_spec x z);
    try congruence; try lia; subst; try lia; auto.
  apply IH.
Qed.

Lemma leb_neq_lt a b : leb a b = true -> a <> b -> lt a b.
Proof.
  unfold leb, lt. intros H Hne. destruct (compare a b) eqn:E; auto.
  - apply compare_eq in E. contradiction.
  - discriminate.
Qed.

(** ** Insertion sort *)

Section Sorting.
Context {A : Type} (le : A -> A -> bool).
Hypothesis le_total : forall a b, le a b = true \/ le b a = true.
Hypothesis le_trans : forall a b c, le a b = true -> le b c = true -> le a c = true.

Lemma insertBy_perm x l : Permutation (x :: l) (insertBy le x l).
Proof.
  induction l as [|y l IH]; simpl; auto.
  destruct (le x y); auto.
  etransitivity; [apply perm_swap|]. now apply perm_skip.
Qed.

Lemma sortBy_perm l : Permutation l (sortBy le l).
Proof.
  induction l as [|x l IH]; simpl; auto.
  etransitivity; [|apply insertBy_perm]. now apply perm_skip.
Qed.

Lemma insertBy_sorted x l :
  StronglySorted (holds le) l -> StronglySorted (holds le) (insertBy le x l).
Proof.
  induction 1 as [|y l Hs IH Hy]; simpl.
  - repeat constructor.
  - destruct (le x y) eqn:E.
    + constructor; [now constructor|]. constructor; auto.
      eapply Forall_impl; [|exact Hy]. intros z Hz. eapply le_trans; eauto.
    + constructor; auto.
      assert (Hyx : le y x = true) by (destruct (le_total x y); congruence).
      eapply Permutation_Forall; [apply insertBy_perm|].
      constructor; auto.
Qed.

Lemma sortBy_sorted l : StronglySorted (holds le) (sortBy le l).
Proof.
  induction l as [|x l IH]; simpl; [constructor|].
  now apply insertBy_sorted.
Qed.

Lemma filter_none (p : A -> bool) l :
  forallb (fun x => negb (p x)) l = true -> filter p l = [].
Proof.
  induction l as [|y l IH]; simpl; auto. intros H.
  apply andb_prop in H. destruct H as [Hy Hl].
  destruct (p y); [discriminate|]. auto.
Qed.

Lemma filter_all (p : A -> bool) l :
  forallb p l = true -> filter p l = l.
Proof.
  induction l as [|y l IH]; simpl; auto. intros H.
  apply andb_prop in H. destruct H as [Hy Hl]. rewrite Hy. f_equal. auto.
Qed.

Lemma sortBy_nil_filter (p : A -> bool) l :
  forallb (fun x => negb (p x)) l = true ->
  sortBy le (filter p l) ++ filter (fun x => negb (p x)) l = l.
Proof.
  intros H. rewrite (filter_none p l H). simpl. now apply filter_all.
Qed.
End Sorting.

Lemma filter_split_perm {A} (p : A -> bool) l :
  Permutation l (filter p l ++ filter (fun x => negb (p x)) l).
Proof.
  induction l as [|x l IH]; simpl; auto.
  destruct (p x); simpl.
  - now apply perm_skip.
  - etransitivity; [apply perm_skip, IH|]. apply Permutation_middle.
Qed.

Lemma entries_perm {V} (o : obj V) : Permutation o (entries o).
Proof.
  unfold entries. etransitivity; [apply (filter_split_perm (fun e => isIndexKey (fst e)))|].
  apply Permutation_app_tail. apply sortBy_perm.
Qed.

Lemma keys_perm {V} (o : obj V) : Permutation (map fst o) (keys o).
Proof. unfold keys. apply Permutation_map, entries_perm. Qed.

Lemma sort_perm l : Permutation l (sort l).
Proof. apply sortBy_perm. Qed.

(** Sorting pairwise distinct strings gives a strictly ascending array. *)
Lemma sort_strict l : NoDup l -> StronglySorted lt (sort l).
Proof.
  intros Hnd.
  assert (Hnd' : NoDup (sort l)).
  { eapply Permutation_NoDup; [apply sort_perm | exact Hnd]. }
  pose proof (sortBy_sorted leb leb_total leb_trans l) as Hs.
  fold (sort l) in Hs. induction Hs as [|x s Hs IH Hx]; [constructor|].
  inversion Hnd' as [|x' s' Hnot Hnd'']; subst.
  constructor; auto.
  rewrite Forall_forall in *. intros y Hy.
  apply leb_neq_lt; [exact (Hx y Hy) | intros ->; contradiction].
Qed.

(** ** Reading and writing properties *)

Lemma get_set {V} (o : obj V) k v k' :
  get (set o k v) k' = if eqb k k' then Some v else get o k'.
Proof.
  induction o as [|[k0 v0] o IH]; simpl.
  - reflexivity.
  - destruct (eqb k0 k) eqn:E; simpl.
    + apply eqb_eq in E. subst k0. now destruct (eqb k k').
    + rewrite IH. destruct (eqb k0 k') eqn:E'; auto.
      apply eqb_eq in E'. subst k0. now rewrite eqb_sym, E.
Qed.

Lemma get_none {V} (o : obj V) k : get o k = None <-> ~ In k (map fst o).
Proof.
  induction o as [|[k0 v0] o IH]; simpl; [tauto|].
  destruct (eqb k0 k) eqn:E.
  - apply eqb_eq in E. split; [discriminate | tauto].
  - apply eqb_neq in E. rewrite IH. tauto.
Qed.

Lemma keys_set {V} (o : obj V) k v :
  map fst (set o k v)
  = match get o k with Some _ => map fst o | None => map fst o ++ [k] end.
Proof.
  induction o as [|[k0 v0] o IH]; simpl; auto.
  destruct (eqb k0 k) eqn:E; simpl; auto.
  rewrite IH. now destruct (get o k).
Qed.

Lemma NoDup_set {V} (o : obj V) k v :
  NoDup (map fst o) -> NoDup (map fst (set o k v)).
Proof.
  intros H. rewrite keys_set. destruct (get o k) eqn:E; auto.
  apply get_none in E.
  eapply Permutation_NoDup; [apply Permutation_cons_append|].
  now constructor.
Qed.

Lemma in_keys {V} (o : obj V) k : In k (keys o) <-> get o k <> None.
Proof.
  rewrite get_none. split.
  - intros H Hn. apply Hn. eapply Permutation_in; [symmetry; apply keys_perm|]. auto.
  - intros H. eapply Permutation_in; [apply keys_perm|].
    destruct (in_dec jstring_eq_dec k (map fst o)); tauto.
Qed.

(** An object without array-index keys lists its properties in the order
    they were created. *)
Lemma entries_plain {V} (o : obj V) :
  forallb (fun e => negb (isIndexKey (fst e))) o = true -> entries o = o.
Proof. intros H. unfold entries. now apply sortBy_nil_filter. Qed.

End ObjFacts.
(* ================================================================== *)
(** * Properties of the summary *)
(* ================================================================== *)

Module WebhookSpec.
Import Js Props JsFacts ObjFacts Webhook.

(** ** Total mode *)

Lemma orZero_int z : orZero (Some (Int z)) = Int z.
Proof.
  simpl. destruct (Z.eqb_spec z 0); simpl; congruence.
Qed.

Lemma signOf_other c t :
  c <> 45%N -> c <> 43%N -> signOf (c :: t) = (1%Z, c :: t).
Proof.
  intros H1 H2. unfold signOf. destruct c as [|p]; [reflexivity|].
  repeat (destruct p as [p|p|]; try reflexivity; try congruence).
Qed.

(** [Number] gives NaN on a string that cannot be a numeral. *)
Lemma notNumeral_NaN s : notNumeral s = true -> stringToNumber s = NaN.
Proof.
  unfold notNumeral, stringToNumber. destruct (trim s) as [|c t]; [discriminate|].
  intros H. apply negb_true_iff, orb_false_elim in H. destruct H as [Hd Hs].
  unfold oneOf in Hs. simpl in Hs.
  apply orb_false_elim in Hs. destruct Hs as [H43 Hs].
  apply orb_false_elim in Hs. destruct Hs as [H45 _].
  apply N.eqb_neq in H43. apply N.eqb_neq in H45.
  rewrite (signOf_other c t H45 H43). cbn [fst snd forallb].
  now rewrite Hd.
Qed.

(** In total mode a whole amount adds its value, and an amount that does
    not coerce to a number adds zero. *)
Lemma amountTotal_contribution r :
  wholeOrNothing (amount r) = true -> amountTotal r = Int (contribution r).
Proof.
  unfold amountTotal, contribution, wholeOrNothing.
  destruct (amount r) as [| |b|[z| |sg]|s]; try discriminate; intros H.
  - reflexivity.
  - apply orZero_int.
  - reflexivity.
  - simpl. now rewrite (notNumeral_NaN s H).
Qed.

Lemma present_in n rows : present n rows = true <-> In n (map number rows).
Proof.
  unfold present. rewrite existsb_exists, in_map_iff.
  split; intros (r & H1 & H2).
  - apply eqb_eq in H2. eauto.
  - exists r. split; auto. now apply eqb_eq.
Qed.

Lemma rowsOf_absent n rows : present n rows = false -> rowsOf n rows = [].
Proof.
  unfold present, rowsOf. induction rows as [|r rows IH]; simpl; auto.
  intros H. apply orb_false_elim in H. destruct H as [H1 H2].
  rewrite H1. auto.
Qed.

Lemma rowsOf_snoc n rows r :
  rowsOf n (rows ++ [r])
  = rowsOf n rows ++ (if eqb (number r) n then [r] else []).
Proof. unfold rowsOf. rewrite filter_app. reflexivity. Qed.

Lemma present_snoc n rows r :
  present n (rows ++ [r]) = present n rows || eqb (number r) n.
Proof. unfold present. rewrite existsb_app. simpl. now rewrite orb_false_r. Qed.

Lemma sumZ_app l1 l2 : sumZ (l1 ++ l2) = (sumZ l1 + sumZ l2)%Z.
Proof. induction l1 as [|x l1 IH]; simpl; [reflexivity | rewrite IH; lia]. Qed.

Lemma groupSum_snoc n rows r :
  groupSum (rows ++ [r]) n
  = (groupSum rows n + (if eqb (number r) n then contribution r else 0))%Z.
Proof.
  unfold groupSum. rewrite rowsOf_snoc, map_app, sumZ_app.
  destruct (eqb (number r) n); simpl; lia.
Qed.

Lemma groupSum_absent n rows : present n rows = false -> groupSum rows n = 0%Z.
Proof. intros H. unfold groupSum. now rewrite (rowsOf_absent _ _ H). Qed.

Lemma absSum_snoc rows r :
  absSum (rows ++ [r]) = (absSum rows + Z.abs (contribution r))%Z.
Proof. unfold absSum. rewrite map_app, sumZ_app. simpl. lia. Qed.

Lemma absSum_nonneg rows : (0 <= absSum rows)%Z.
Proof.
  unfold absSum. induction rows as [|r rows IH]; simpl; lia.
Qed.

Lemma absSum_filter (p : Row -> bool) rows :
  (absSum (filter p rows) <= absSum rows)%Z.
Proof.
  unfold absSum. induction rows as [|r rows IH]; simpl; [lia|].
  destruct (p r); simpl; lia.
Qed.

(** A sum of amounts is bounded by the sum of their magnitudes. *)
Lemma sum_le_absSum rows :
  (Z.abs (sumZ (map contribution rows)) <= absSum rows)%Z.
Proof.
  unfold absSum. induction rows as [|r rows IH]; simpl; lia.
Qed.

Lemma groupSum_bound rows n : (Z.abs (groupSum rows n) <= absSum rows)%Z.
Proof.
  unfold groupSum, rowsOf.
  pose proof (sum_le_absSum (filter (fun r => eqb (number r) n) rows)).
  pose proof (absSum_filter (fun r => eqb (number r) n) rows). lia.
Qed.

Lemma forallb_snoc {A} (p : A -> bool) l x :
  forallb p (l ++ [x]) = true -> forallb p l = true /\ p x = true.
Proof.
  rewrite forallb_app. simpl. rewrite andb_true_r. apply andb_prop.
Qed.

Lemma aggTotal_snoc rows r : aggTotal (rows ++ [r]) = addTotal (aggTotal rows) r.
Proof. unfold aggTotal. now rewrite fold_left_app. Qed.

(** For rows whose amounts are whole or count for nothing and whose sum
    of magnitudes stays within 2^53, the object of total mode holds, for
    each number that occurs, the sum of the amounts of its rows, and
    nothing else. *)
Lemma aggTotal_get rows n :
  forallb totalRow rows = true -> (absSum rows <= maxSafe)%Z ->
  get (aggTotal rows) n
  = if present n rows then Some (Int (groupSum rows n)) else None.
Proof.
  induction rows as [|r rows IH] using rev_ind; [reflexivity|].
  intros Hd Hb. apply forallb_snoc in Hd. destruct Hd as [Hd Hr].
  rewrite absSum_snoc in Hb. pose proof (absSum_nonneg rows) as Hn.
  specialize (IH Hd ltac:(lia)).
  unfold totalRow in Hr. apply andb_prop in Hr. destruct Hr as [Hr _].
  rewrite aggTotal_snoc, present_snoc, groupSum_snoc. unfold addTotal.
  rewrite get_set. destruct (eqb (number r) n) eqn:E.
  - apply eqb_eq in E. rewrite E, IH, orb_true_r, (amountTotal_contribution r Hr).
    pose proof (groupSum_bound rows n) as Hg.
    destruct (present n rows) eqn:P.
    + rewrite orZero_int, num_add_safe; [reflexivity | lia].
    + rewrite (groupSum_absent _ _ P). cbn [orZero].
      rewrite num_add_safe; [reflexivity | lia].
  - rewrite IH, orb_false_r, Z.add_0_r. reflexivity.
Qed.

Lemma fold_nodup {V R} (step : obj V -> R -> obj V) :
  (forall o r, NoDup (map fst o) -> NoDup (map fst (step o r))) ->
  forall l o, NoDup (map fst o) -> NoDup (map fst (fold_left step l o)).
Proof.
  intros Hstep l. induction l as [|r l IH]; simpl; auto.
Qed.

Lemma aggTotal_nodup rows : NoDup (map fst (aggTotal rows)).
Proof.
  apply fold_nodup; [|constructor].
  intros o r H. now apply NoDup_set.
Qed.

Lemma sorted_keys {V} (o : obj V) :
  NoDup (map fst o) -> StronglySorted lt (sort (keys o)).
Proof.
  intros H. apply sort_strict.
  eapply Permutation_NoDup; [apply keys_perm | exact H].
Qed.

Lemma in_sorted_keys {V} (o : obj V) n :
  In n (sort (keys o)) <-> get o n <> None.
Proof.
  rewrite <- in_keys. split; intros H.
  - eapply Permutation_in; [symmetry; apply sort_perm | exact H].
  - eapply Permutation_in; [apply sort_perm | exact H].
Qed.



Example total_mode_text :
  replyAggregates
    [mkRow (lit "22") (VNum (Int 500)) (lit "bob") (Int 0);
     mkRow (lit "05") (VNum (Int 100)) (lit "al") (Int 0);
     mkRow (lit "22") (VNum (Int 50)) (lit "al") (Int 0)] false
  = totalHeader ++ lit "05 - 100" ++ nl ++ lit "22 - 550".
Proof. reflexivity. Qed.

(** ** Empty input *)

(** C6. With no rows the reply is the fixed text of the no-data signal in
    both modes; that text is no report, with or without lines, and rows
    that exist never give it. *)
Theorem empty_gives_no_data (perUser : bool) :
  replyAggregates [] perUser = noDataText /\
  (forall lines, noDataText <> totalHeader ++ join nl lines) /\
  (forall lines, noDataText <> perUserHeader ++ join nl lines) /\
  (forall rows, replyAggregates rows perUser = noDataText <-> rows = []).
Proof.
  split; [reflexivity|]. split; [discriminate|]. split; [discriminate|].
  intros [|r rows]; [tauto|]. split; [|discriminate].
  unfold replyAggregates. destruct (negb perUser); discriminate.
Qed.

(** ** The filter on the local hour *)

Lemma offset_exact :
  floatToZ yangonOffsetFloat = Some yangonOffset /\
  yangonOffset = (6 * msPerHour + 30 * 60000)%Z.
Proof. split; reflexivity. Qed.

(** C10. For a time value whose image under the shift is still a date,
    the filter adds 23,400,000 milliseconds, which is six hours and thirty
    minutes and is what the binary64 product of the source evaluates to
    without rounding, and answers true exactly when the hour of the day
    of the shifted time is below 12. *)
Theorem before_noon_local t :
  (Z.abs (t + yangonOffset) <= maxTimeValue)%Z ->
  (isBeforeNoonLocal (Int t) = true <->
   (((t + 23400000) / 3600000) mod 24 < 12)%Z) /\
  floatToZ yangonOffsetFloat = Some 23400000%Z /\
  (23400000 = 6 * 3600000 + 30 * 60000)%Z.
Proof.
  intros Hr. split; [|split; [apply offset_exact | reflexivity]].
  unfold isBeforeNoonLocal.
  rewrite num_add_safe by (unfold maxTimeValue, maxSafe in *; lia).
  cbn [newDate].
  apply Z.leb_le in Hr. rewrite Hr. cbn [getUTCHours num_ltb].
  unfold yangonOffset, msPerHour. apply Z.ltb_lt.
Qed.

(** Midnight UTC is half past six in the morning. *)
Lemma before_noon_local_epoch : isBeforeNoonLocal (Int 0) = true.
Proof.
  apply (proj1 (before_noon_local 0 ltac:(vm_compute; discriminate))).
  reflexivity.
Defined.

(** ** Per-sender mode: the object built by the loop *)

Lemma aggPerUser_snoc rows r :
  aggPerUser (rows ++ [r]) = addPerUser (aggPerUser rows) r.
Proof. unfold aggPerUser. now rewrite fold_left_app. Qed.

Lemma innerOf_absent n rows : present n rows = false -> innerOf rows n = [].
Proof. intros H. unfold innerOf. now rewrite (rowsOf_absent _ _ H). Qed.

Lemma innerOf_snoc n rows r :
  innerOf (rows ++ [r]) n
  = if eqb (number r) n then innerStep (innerOf rows n) r else innerOf rows n.
Proof.
  unfold innerOf. rewrite rowsOf_snoc, fold_left_app.
  now destruct (eqb (number r) n).
Qed.

(** Under each number that occurs, the outer object holds the object that
    the rows of that number build on their own. *)
Lemma aggPerUser_get rows n :
  get (aggPerUser rows) n
  = if present n rows then Some (innerOf rows n) else None.
Proof.
  induction rows as [|r rows IH] using rev_ind; [reflexivity|].
  rewrite aggPerUser_snoc, present_snoc, innerOf_snoc. unfold addPerUser.
  rewrite get_set. destruct (eqb (number r) n) eqn:E.
  - apply eqb_eq in E. rewrite E, IH, orb_true_r.
    destruct (present n rows) eqn:P; [reflexivity|].
    now rewrite (innerOf_absent _ _ P).
  - rewrite get_set, E, IH, orb_false_r. reflexivity.
Qed.

Lemma aggPerUser_nodup rows : NoDup (map fst (aggPerUser rows)).
Proof.
  apply fold_nodup; [|constructor].
  intros o r H. unfold addPerUser. now apply NoDup_set, NoDup_set.
Qed.

(** ** Per-sender mode: order of the senders *)

Lemma inb_in k ks : inb k ks = true <-> In k ks.
Proof.
  unfold inb. rewrite existsb_exists. split.
  - intros (x & Hx & E). apply eqb_eq in E. now subst.
  - intros H. exists k. split; auto. apply eqb_refl.
Qed.

Lemma inb_app k ks1 ks2 : inb k (ks1 ++ ks2) = inb k ks1 || inb k ks2.
Proof. apply existsb_app. Qed.

Lemma get_inb {V} (o : obj V) k :
  inb k (map fst o) = match get o k with Some _ => true | None => false end.
Proof.
  destruct (get o k) eqn:E.
  - apply inb_in. destruct (in_dec jstring_eq_dec k (map fst o)) as [H|H]; auto.
    apply get_none in H. congruence.
  - apply get_none in E. destruct (inb k (map fst o)) eqn:I; auto.
    apply inb_in in I. contradiction.
Qed.

Lemma innerStep_keys o r :
  map fst (innerStep o r) = keyStep (map fst o) (sender r).
Proof.
  unfold innerStep, keyStep. rewrite keys_set, get_inb.
  now destruct (get o (sender r)).
Qed.

Lemma filter_twice {A} (p q : A -> bool) l :
  filter p (filter q l) = filter (fun y => q y && p y) l.
Proof.
  induction l as [|x l IH]; simpl; auto.
  destruct (q x); simpl; [destruct (p x)|]; now rewrite IH.
Qed.

Lemma keyStep_fold l ks :
  fold_left keyStep l ks
  = ks ++ filter (fun s => negb (inb s ks)) (firstAppearance l).
Proof.
  revert ks. induction l as [|x l IH]; intros ks; simpl.
  - now rewrite app_nil_r.
  - rewrite IH. unfold keyStep. destruct (inb x ks) eqn:E; simpl.
    + f_equal. rewrite filter_twice. apply filter_ext. intros y.
      destruct (eqb y x) eqn:Eyx; simpl; auto.
      apply eqb_eq in Eyx. subst y. now rewrite E.
    + rewrite <- app_assoc. simpl. f_equal. f_equal.
      rewrite filter_twice. apply filter_ext. intros y.
      rewrite inb_app. unfold inb at 2. simpl. rewrite orb_false_r.
      now rewrite negb_orb, andb_comm.
Qed.

Lemma innerFold_keys l o :
  map fst (fold_left innerStep l o) = fold_left keyStep (map sender l) (map fst o).
Proof.
  revert o. induction l as [|r l IH]; intros o; simpl; auto.
  now rewrite IH, innerStep_keys.
Qed.

Lemma innerOf_keys rows n : map fst (innerOf rows n) = sendersOf rows n.
Proof.
  unfold innerOf, sendersOf. rewrite innerFold_keys, keyStep_fold. simpl.
  apply ObjFacts.filter_all. apply forallb_forall. reflexivity.
Qed.

Lemma innerFold_value l o s :
  get (fold_left innerStep l o) s
  = fold_left pairStep (filter (fun r => eqb (sender r) s) l) (get o s).
Proof.
  revert o. induction l as [|r l IH]; intros o; simpl; auto.
  rewrite IH. unfold innerStep at 1. rewrite get_set.
  destruct (eqb (sender r) s) eqn:E; simpl; auto.
  apply eqb_eq in E. now subst s.
Qed.

Lemma innerOf_value rows n s : valueOr (innerOf rows n) s = pairSum rows n s.
Proof. unfold valueOr, pairSum, innerOf. now rewrite innerFold_value. Qed.

Lemma obj_by_keys (o : obj num) :
  NoDup (map fst o) -> o = map (fun k => (k, valueOr o k)) (map fst o).
Proof.
  induction o as [|[k v] o IH]; simpl; auto. intros H.
  inversion H as [|k' ks Hnot Hnd]; subst. unfold valueOr at 1. simpl.
  rewrite eqb_refl. f_equal. rewrite (IH Hnd) at 1.
  apply map_ext_in. intros k0 Hk0. unfold valueOr. simpl.
  destruct (eqb k k0) eqn:E; auto.
  apply eqb_eq in E. subst k0. contradiction.
Qed.

Lemma innerOf_nodup rows n : NoDup (map fst (innerOf rows n)).
Proof.
  apply fold_nodup; [|constructor].
  intros o r H. now apply NoDup_set.
Qed.

(** The object of a number: its senders by first row, each with its sum. *)
Lemma innerOf_shape rows n :
  innerOf rows n = map (fun s => (s, pairSum rows n s)) (sendersOf rows n).
Proof.
  rewrite (obj_by_keys _ (innerOf_nodup rows n)) at 1.
  rewrite innerOf_keys. apply map_ext. intros s. now rewrite innerOf_value.
Qed.

Lemma firstAppearance_incl l s : In s (firstAppearance l) -> In s l.
Proof.
  induction l as [|x l IH]; simpl; auto.
  intros [H | H]; auto. apply filter_In in H. destruct H as [H _]. auto.
Qed.

Lemma innerOf_plain rows n :
  forallb (fun r => negb (isIndexKey (sender r))) rows = true ->
  entries (innerOf rows n) = innerOf rows n.
Proof.
  intros H. apply entries_plain. rewrite innerOf_shape.
  apply forallb_forall. intros e He. apply in_map_iff in He.
  destruct He as (s & <- & Hs). simpl.
  apply firstAppearance_incl, in_map_iff in Hs.
  destruct Hs as (r & <- & Hr). apply filter_In in Hr. destruct Hr as [Hr _].
  rewrite forallb_forall in H. now apply H.
Qed.

(** ** Per-sender mode: the sums *)

Lemma amountPerUser_whole r :
  isWhole (amount r) = true -> amountPerUser r = Int (contribution r).
Proof.
  unfold amountPerUser, contribution, isWhole.
  destruct (amount r) as [| |b|[z| |sg]|s]; try discriminate. intros _.
  simpl. destruct (Z.eqb_spec z 0); simpl; congruence.
Qed.

Lemma senderRow_whole rows :
  forallb senderRow rows = true ->
  Forall (fun r => isWhole (amount r) = true) rows.
Proof.
  rewrite forallb_forall, Forall_forall. intros H r Hr.
  specialize (H r Hr). unfold senderRow in H.
  apply andb_prop in H. destruct H as [H _].
  apply andb_prop in H. tauto.
Qed.

Lemma senderRow_totalRow rows :
  forallb senderRow rows = true -> forallb totalRow rows = true.
Proof.
  apply ParserSpec.forallb_impl. intros r H. unfold senderRow in H.
  apply andb_prop in H. destruct H as [H _].
  apply andb_prop in H. destruct H as [Hw Hk].
  unfold totalRow. rewrite Hk, andb_true_r. unfold isWhole in Hw.
  destruct (amount r) as [| |b|[z| |sg]|t]; try discriminate. reflexivity.
Qed.

(** The running sum of a sender over whole amounts within 2^53. *)
Lemma pairFold_whole l cur z :
  Forall (fun r => isWhole (amount r) = true) l ->
  orZero cur = Int z ->
  (Z.abs z + absSum l <= maxSafe)%Z ->
  l <> [] ->
  fold_left pairStep l cur = Some (Int (z + sumZ (map contribution l))).
Proof.
  intros Hl. revert cur z. induction Hl as [|r l Hr Hl IH]; intros cur z Hc Hb Hne.
  - congruence.
  - cbn [fold_left]. unfold pairStep at 2.
    rewrite Hc, (amountPerUser_whole r Hr).
    unfold absSum in Hb. simpl in Hb. fold (absSum l) in Hb.
    pose proof (absSum_nonneg l) as Hn.
    rewrite num_add_safe by lia.
    destruct l as [|r' l'].
    + simpl. f_equal. f_equal. lia.
    + rewrite (IH (Some (Int (z + contribution r))) (z + contribution r)%Z).
      * simpl. f_equal. f_equal. lia.
      * apply orZero_int.
      * lia.
      * discriminate.
Qed.

Lemma pairSum_whole rows n s :
  forallb senderRow rows = true -> (absSum rows <= maxSafe)%Z ->
  pairSum rows n s = Int (pairTotal rows n s).
Proof.
  intros Hd Hb. unfold pairSum, pairTotal. fold (pairRows rows n s).
  assert (Hw : Forall (fun r => isWhole (amount r) = true) (pairRows rows n s)).
  { pose proof (senderRow_whole rows Hd) as H. rewrite Forall_forall in *.
    intros r Hr. apply H. unfold pairRows, rowsOf in Hr.
    apply filter_In in Hr. destruct Hr as [Hr _]. apply filter_In in Hr. tauto. }
  assert (Hs : (absSum (pairRows rows n s) <= absSum rows)%Z).
  { unfold pairRows, rowsOf.
    pose proof (absSum_filter (fun r => eqb (sender r) s)
                  (filter (fun r => eqb (number r) n) rows)).
    pose proof (absSum_filter (fun r => eqb (number r) n) rows). lia. }
  destruct (pairRows rows n s) as [|r l] eqn:E; [reflexivity|].
  rewrite (pairFold_whole (r :: l) None 0 Hw eq_refl);
    [reflexivity | change (Z.abs 0) with 0%Z; lia | discriminate].
Qed.

(** C4, as the code has it. In per-sender mode, when no sender string is
    an array index (a canonical decimal numeral), a non-empty set of rows
    gives the header followed by one line per distinct number, numbers
    strictly ascending, each line being the number, [" -> "] and the
    senders of that number in the order of their first row, each as
    ["<sender>: <sum>"], joined by ["; "].  It is stated for rows whose
    amount is a whole number, whose amounts stay within 2^53 in total, and
    whose number and sender are not names inherited from
    [Object.prototype]. *)
Theorem per_sender_report rows :
  rows <> [] ->
  forallb senderRow rows = true ->
  (absSum rows <= maxSafe)%Z ->
  forallb (fun r => negb (isIndexKey (sender r))) rows = true ->
  perSenderReport rows.
Proof.
  intros Hne Hd Hb Hplain. exists (sort (keys (aggPerUser rows))). split; [|split].
  - destruct rows as [|r rows]; [congruence|].
    unfold replyAggregates. simpl negb. cbv iota. f_equal. f_equal.
    unfold perUserLines. apply map_ext_in. intros n Hn.
    apply in_sorted_keys in Hn. unfold perUserLine, perSenderLine.
    rewrite aggPerUser_get in Hn |- *.
    destruct (present n (r :: rows)); [|congruence].
    rewrite (innerOf_plain _ n Hplain), innerOf_shape, map_map.
    f_equal. f_equal. f_equal. apply map_ext. intros s.
    unfold senderPart. cbn [fst snd]. now rewrite (pairSum_whole _ n s Hd Hb).
  - apply sorted_keys, aggPerUser_nodup.
  - intros n. rewrite in_sorted_keys, aggPerUser_get, <- present_in.
    destruct (present n rows); split; congruence.
Qed.

Lemma per_sender_report_example :
  perSenderReport [mkRow (lit "22") (VNum (Int 500)) (lit "bob") (Int 0);
                   mkRow (lit "22") (VNum (Int 100)) (lit "al") (Int 0);
                   mkRow (lit "05") (VNum (Int 50)) (lit "bob") (Int 0);
                   mkRow (lit "22") (VNum (Int 1)) (lit "bob") (Int 0)].
Proof.
  apply per_sender_report;
    [discriminate | reflexivity | vm_compute; discriminate | reflexivity].
Defined.

Example per_sender_text :
  replyAggregates
    [mkRow (lit "22") (VNum (Int 500)) (lit "bob") (Int 0);
     mkRow (lit "22") (VNum (Int 100)) (lit "al") (Int 0);
     mkRow (lit "05") (VNum (Int 50)) (lit "bob") (Int 0);
     mkRow (lit "22") (VNum (Int 1)) (lit "bob") (Int 0)] true
  = perUserHeader ++ lit "05 -> bob: 50" ++ nl
      ++ lit "22 -> bob: 501; al: 100".
Proof. reflexivity. Qed.

(** C4 as stated fails. A sender whose name is a decimal numeral is listed
    before a sender who bet earlier: first-appearance order for every
    choice of sender strings does not hold on these two rows. *)
Lemma per_sender_order_counterexample :
  let rows := [mkRow (lit "22") (VNum (Int 1)) (lit "bob") (Int 0);
               mkRow (lit "22") (VNum (Int 2)) (lit "7") (Int 0)] in
  replyAggregates rows true = perUserHeader ++ lit "22 -> 7: 2; bob: 1" /\
  perSenderLine rows (lit "22") = lit "22 -> bob: 1; 7: 2" /\
  ~ perSenderReport rows.
Proof.
  intros rows. split; [reflexivity|]. split; [reflexivity|].
  intros (ks & Heq & Hs & Hin).
  assert (Hall : forall n, In n ks -> n = lit "22").
  { intros n Hn. apply Hin in Hn. simpl in Hn.
    destruct Hn as [Hn | [Hn | []]]; now subst. }
  destruct ks as [|a [|b ks]].
  - destruct (proj2 (Hin (lit "22"))); simpl; auto.
  - rewrite (Hall a) in Heq by now left. vm_compute in Heq. discriminate.
  - inversion Hs as [|x l Hs' Hf]; subst.
    inversion Hf as [|y l' Hab Hf']; subst.
    rewrite (Hall a) in Hab by now left.
    rewrite (Hall b) in Hab by (right; now left).
    vm_compute in Hab. discriminate.
Qed.

(** ** Amounts that are not numbers *)

(** An amount that is absent, NaN or a string that cannot be a numeral
    counts as zero in total mode. *)
Lemma total_mode_skips_non_numeric r :
  wholeOrNothing (amount r) = true -> isWhole (amount r) = false ->
  amountTotal r = Int 0 /\ contribution r = 0%Z.
Proof.
  intros H Hw. rewrite (amountTotal_contribution r H). unfold contribution.
  destruct (amount r) as [| |b|[z| |sg]|t]; try discriminate; auto.
Qed.

(** C2 on the code. The text [abc] does not coerce to a number. Total
    mode counts it as zero. The per-user branch adds NaN: the sum of the
    sender becomes NaN, and the next amount then starts again from zero,
    so the amounts before it are lost. A report is sent in each case. *)
Theorem non_numeric_amount_per_sender :
  let five := mkRow (lit "22") (VNum (Int 5)) (lit "al") (Int 0) in
  let bad := mkRow (lit "22") (VStr (lit "abc")) (lit "al") (Int 0) in
  let seven := mkRow (lit "22") (VNum (Int 7)) (lit "al") (Int 0) in
  toNumber (amount bad) = NaN /\
  amountTotal bad = Int 0 /\
  amountPerUser bad = NaN /\
  replyAggregates [five; bad] false = totalHeader ++ lit "22 - 5" /\
  replyAggregates [five; bad] true = perUserHeader ++ lit "22 -> al: NaN" /\
  replyAggregates [five; bad; seven] false = totalHeader ++ lit "22 - 12" /\
  replyAggregates [five; bad; seven] true = perUserHeader ++ lit "22 -> al: 7".
Proof. repeat split; reflexivity. Qed.

(** ** Total mode against per-sender mode *)

(** C3 on the code. With one amount that is not a number the total of
    number 22 is 5 while the sums of its senders add up to NaN; with a
    further amount they add up to 7 against a total of 12. *)
Theorem modes_disagree_on_non_numeric :
  let five := mkRow (lit "22") (VNum (Int 5)) (lit "al") (Int 0) in
  let bad := mkRow (lit "22") (VStr (lit "abc")) (lit "al") (Int 0) in
  let seven := mkRow (lit "22") (VNum (Int 7)) (lit "al") (Int 0) in
  totalOf [five; bad] (lit "22") = Some (Int 5) /\
  perSenderTotal [five; bad] (lit "22") = NaN /\
  totalOf [five; bad; seven] (lit "22") = Some (Int 12) /\
  perSenderTotal [five; bad; seven] (lit "22") = Int 7.
Proof. repeat split; reflexivity. Qed.

Lemma absValSum_cons k v (o : obj num) :
  absValSum ((k, v) :: o) = (Z.abs (intOf v) + absValSum o)%Z.
Proof. reflexivity. Qed.

Lemma valSum_cons k v (o : obj num) :
  valSum ((k, v) :: o) = (intOf v + valSum o)%Z.
Proof. reflexivity. Qed.

Lemma absValSum_nonneg (o : obj num) : (0 <= absValSum o)%Z.
Proof. unfold absValSum. induction o as [|e o IH]; simpl; lia. Qed.

Lemma sumNums_int (o : obj num) a :
  Forall (fun e => isInt (snd e)) o ->
  (Z.abs a + absValSum o <= maxSafe)%Z ->
  fold_left num_add (map snd o) (Int a) = Int (a + valSum o).
Proof.
  revert a. induction o as [|[k v] o IH]; intros a H Hb; cbn [map snd fold_left].
  - unfold valSum. simpl. now rewrite Z.add_0_r.
  - inversion H as [|e l [z Hz] Hl]; subst. simpl in Hz. subst v.
    rewrite absValSum_cons in Hb. cbn [intOf] in Hb.
    pose proof (absValSum_nonneg o) as Hn.
    rewrite num_add_safe by lia.
    rewrite (IH _ Hl) by lia. rewrite valSum_cons. cbn [intOf]. f_equal. lia.
Qed.

Lemma set_valSum (o : obj num) k c :
  Forall (fun e => isInt (snd e)) o ->
  (absValSum o + Z.abs c <= maxSafe)%Z ->
  let o' := set o k (num_add (orZero (get o k)) (Int c)) in
  Forall (fun e => isInt (snd e)) o' /\
  valSum o' = (valSum o + c)%Z /\
  (absValSum o' <= absValSum o + Z.abs c)%Z.
Proof.
  induction o as [|[k0 v0] o IH]; intros H Hb; cbn [set get].
  - unfold absValSum in Hb. simpl in Hb. cbn [orZero].
    rewrite num_add_safe by lia.
    split; [repeat constructor; now exists (0 + c)%Z|].
    rewrite valSum_cons, absValSum_cons. cbn [intOf].
    unfold valSum, absValSum. simpl. lia.
  - inversion H as [|e l [z Hz] Hl]; subst. simpl in Hz. subst v0.
    rewrite absValSum_cons in Hb. cbn [intOf] in Hb.
    pose proof (absValSum_nonneg o) as Hn.
    destruct (eqb k0 k) eqn:E.
    + rewrite orZero_int, num_add_safe by lia. split; [|split].
      * constructor; auto. now exists (z + c)%Z.
      * rewrite !valSum_cons. cbn [intOf]. lia.
      * rewrite !absValSum_cons. cbn [intOf]. lia.
    + destruct (IH Hl ltac:(lia)) as (IH1 & IH2 & IH3). split; [|split].
      * constructor; auto. now exists z.
      * rewrite !valSum_cons, IH2. lia.
      * rewrite !absValSum_cons. lia.
Qed.

Lemma innerFold_valSum l o :
  Forall (fun r => isWhole (amount r) = true) l ->
  Forall (fun e => isInt (snd e)) o ->
  (absValSum o + absSum l <= maxSafe)%Z ->
  let o' := fold_left innerStep l o in
  Forall (fun e => isInt (snd e)) o' /\
  valSum o' = (valSum o + sumZ (map contribution l))%Z /\
  (absValSum o' <= absValSum o + absSum l)%Z.
Proof.
  intros Hl. revert o. induction Hl as [|r l Hr Hl IH]; intros o Ho Hb; simpl.
  - unfold absSum. simpl. repeat split; auto; lia.
  - unfold absSum in Hb. simpl in Hb. fold (absSum l) in Hb.
    pose proof (absSum_nonneg l) as Hn.
    destruct (set_valSum o (sender r) (contribution r) Ho ltac:(lia))
      as (S1 & S2 & S3).
    rewrite <- (amountPerUser_whole r Hr) in S1, S2, S3.
    fold (innerStep o r) in S1, S2, S3.
    destruct (IH (innerStep o r) S1 ltac:(lia)) as (I1 & I2 & I3).
    split; [exact I1|].
    change (absSum (r :: l)) with (Z.abs (contribution r) + absSum l)%Z.
    split; lia.
Qed.

(** X11. When every amount is a whole number and the amounts stay within
    2^53 in total, the two modes agree: the total of a number that occurs
    is the sum of the sums of its senders. *)
Lemma modes_agree_on_numeric rows n :
  forallb senderRow rows = true ->
  (absSum rows <= maxSafe)%Z ->
  In n (map number rows) ->
  totalOf rows n = Some (perSenderTotal rows n).
Proof.
  intros Hd Hb Hn. apply present_in in Hn.
  unfold totalOf, perSenderTotal.
  rewrite (aggTotal_get rows n (senderRow_totalRow rows Hd) Hb).
  rewrite aggPerUser_get, Hn. f_equal.
  assert (Hsub : Forall (fun r => isWhole (amount r) = true) (rowsOf n rows)).
  { pose proof (senderRow_whole rows Hd) as H. rewrite Forall_forall in *.
    intros r Hr. apply H. unfold rowsOf in Hr. apply filter_In in Hr. tauto. }
  pose proof (absSum_filter (fun r => eqb (number r) n) rows) as Hf.
  fold (rowsOf n rows) in Hf.
  destruct (innerFold_valSum (rowsOf n rows) [] Hsub (Forall_nil _))
    as (I1 & I2 & I3).
  { unfold absValSum. simpl. lia. }
  fold (innerOf rows n) in I1, I2, I3.
  unfold absValSum in I3 at 2. simpl in I3.
  unfold sumNums. rewrite (sumNums_int _ 0 I1) by (simpl; lia).
  rewrite I2. reflexivity.
Qed.

End WebhookSpec.

(* ================================================================== *)
(** * Further properties of the parser *)
(* ================================================================== *)

Module ParserMore.
Import Js Props MoreProps JsFacts Parser ParserSpec.

(** ** Separators *)

Lemma split_nonempty sep s : split sep s <> [].
Proof.
  destruct s as [|x s]; simpl; [discriminate|].
  destruct (sep x); [discriminate|]. destruct (split sep s); discriminate.
Qed.

Lemma split_at sep a c b :
  sep c = true -> split sep (a ++ c :: b) = split sep a ++ split sep b.
Proof.
  intros Hc. induction a as [|x a IH]; simpl.
  - now rewrite Hc.
  - destruct (sep x); [now rewrite IH|]. rewrite IH.
    pose proof (split_nonempty sep a) as Hne.
    destruct (split sep a) as [|p ps]; [congruence | reflexivity].
Qed.

Lemma partsOf_at a c b :
  isSeparator c = true -> partsOf (a ++ c :: b) = partsOf a ++ partsOf b.
Proof.
  intros Hc. unfold partsOf. now rewrite (split_at _ a c b Hc), map_app, filter_app.
Qed.

(** X1. A comma or a line feed cuts a message in two messages that are parsed
    independently: the bets of the whole are the bets of the left side
    followed by the bets of the right side. *)
Theorem parse_at_separator a c b :
  isSeparator c = true ->
  parseMessageToBets (a ++ c :: b)
  = parseMessageToBets a ++ parseMessageToBets b.
Proof.
  intros Hc. rewrite !parse_flat, (partsOf_at a c b Hc). apply flat_map_app.
Qed.

Lemma parse_at_separator_example :
  parseMessageToBets (lit "15r20" ++ 44%N :: lit " 7=3")
  = parseMessageToBets (lit "15r20") ++ parseMessageToBets (lit " 7=3").
Proof. apply parse_at_separator. reflexivity. Defined.

(** ** Amounts *)

Lemma capture_amount b : capOf digits b -> stake (parseInt10 b).
Proof.
  intros (Hd & Hl & _). simpl in *. unfold stake.
  rewrite parseInt10_digits; auto.
  - apply fromInteger_nonneg. now apply digitsValue_nonneg.
  - destruct b; simpl in Hl; [lia | discriminate].
Qed.

Lemma betsOfPart_amounts part : Forall wholeAmount (betsOfPart part).
Proof.
  unfold betsOfPart.
  destruct (matchRe reDelim _) as [m|] eqn:E1.
  { apply matchRe_two in E1; [|reflexivity].
    destruct E1 as (a & b & -> & Ha & Hb).
    constructor; [|constructor]. apply (capture_amount b Hb). }
  destruct (matchRe reReverse _) as [m|] eqn:E2.
  { apply matchRe_two in E2; [|reflexivity].
    destruct E2 as (a & b & -> & Ha & Hb).
    constructor; [|constructor; [|constructor]]; apply (capture_amount b Hb). }
  destruct (matchRe reEquals _) as [m|] eqn:E3.
  { apply matchRe_two in E3; [|reflexivity].
    destruct E3 as (a & b & -> & Ha & Hb).
    constructor; [|constructor]. apply (capture_amount b Hb). }
  destruct (matchRe reSpace _) as [m|] eqn:E4.
  { apply matchRe_two in E4; [|reflexivity].
    destruct E4 as (a & b & -> & Ha & Hb).
    constructor; [|constructor]. apply (capture_amount b Hb). }
  constructor.
Qed.

(** X2. The amount of every bet is a whole number that is not negative, or
    the positive infinity when the digits denote more than a number can
    hold: the parser never returns NaN and never reads a sign. *)
Theorem bet_amount_whole text : Forall wholeAmount (parseMessageToBets text).
Proof.
  rewrite parse_flat, Forall_forall. intros b Hb.
  apply in_flat_map in Hb. destruct Hb as (part & _ & Hb).
  pose proof (betsOfPart_amounts part) as H. rewrite Forall_forall in H.
  now apply H.
Qed.

(** Digits beyond the largest number are read as the positive infinity. *)
Example amount_overflow :
  map Parser.amount (parseMessageToBets (lit "7-1" ++ repeat 48%N 400))
  = [Inf false].
Proof. vm_compute. reflexivity. Qed.

(** A part gives at most two bets. *)
Lemma betsOfPart_length part : (List.length (betsOfPart part) <= 2)%nat.
Proof.
  unfold betsOfPart.
  destruct (matchRe reDelim _); simpl; [lia|].
  destruct (matchRe reReverse _); simpl; [lia|].
  destruct (matchRe reEquals _); simpl; [lia|].
  destruct (matchRe reSpace _); simpl; lia.
Qed.

(** ** The delimited patterns *)

(** A text that starts and ends with a digit and holds no separator is
    one part. *)
Lemma part_is_message d mid ds :
  d <> [] -> forallb isDigit d = true ->
  ds <> [] -> forallb isDigit ds = true ->
  forallb (fun c => negb (isSeparator c)) mid = true ->
  parseMessageToBets (d ++ mid ++ ds) = betsOfPart (d ++ mid ++ ds).
Proof.
  intros Hd0 Hd Hne Hds Hmid. apply parse_one_part.
  - destruct d; [congruence | discriminate].
  - rewrite !forallb_app, (digits_no_separator _ Hd), Hmid.
    now rewrite (digits_no_separator _ Hds).
  - apply trim_id.
    + destruct d as [|x d]; [congruence|]. simpl in *.
      apply andb_prop in Hd. destruct Hd as [Hx _]. now apply digit_not_space.
    + rewrite app_assoc. now apply last_digit_not_space.
Qed.

(** A pattern [(\d{1,2})\s*P\s*(\d+)] on number, white space, one code
    unit of [P], white space, digits. *)
Lemma match_delimited p d s1 c s2 ds :
  cls p c = true -> (lo p <= 1)%nat -> hi p = Some 1%nat -> cap p = false ->
  isDigit c = false -> isSpace c = false ->
  (1 <= List.length d <= 2)%nat -> forallb isDigit d = true ->
  forallb isSpace s1 = true -> forallb isSpace s2 = true ->
  ds <> [] -> forallb isDigit ds = true ->
  matchPieces [num12; spaces; p; spaces; digits] (d ++ s1 ++ [c] ++ s2 ++ ds)
  = Some [d; ds].
Proof.
  intros Hc Hlo Hhi Hcap Hcd Hcs Hl Hd Hs1 Hs2 Hne Hds.
  assert (Hsp := head_digit_not_space ds Hds).
  destruct p as [pc pl ph pcap]. simpl in Hc, Hlo, Hhi, Hcap. subst ph pcap.
  replace (d ++ s1 ++ [c] ++ s2 ++ ds) with (d ++ s1 ++ [c] ++ s2 ++ ds ++ [])
    by now rewrite app_nil_r.
  apply (matchPieces_greedy num12);
    [exact Hd | simpl; lia | simpl; lia | |].
  { right. destruct s1 as [|w s1]; simpl; auto.
    simpl in Hs1. apply andb_prop in Hs1. destruct Hs1 as [Hw _].
    destruct (isDigit w) eqn:E; auto.
    rewrite (digit_not_space _ E) in Hw. discriminate. }
  apply (matchPieces_greedy spaces);
    [exact Hs1 | simpl; lia | exact I | now right |].
  apply (matchPieces_greedy (Piece pc pl (Some 1%nat) false) _ [c]);
    [cbn [forallb cls]; now rewrite Hc | simpl; lia | simpl; lia | now left |].
  apply (matchPieces_greedy spaces);
    [exact Hs2 | simpl; lia | exact I | |].
  { right. rewrite app_nil_r. destruct ds; [congruence | exact Hsp]. }
  apply (matchPieces_greedy digits _ ds []);
    [exact Hds | destruct ds; [congruence | simpl; lia] | exact I | now right
    | reflexivity].
Qed.

Lemma delimiter_cases c :
  oneOf (lit "-_dD=") c = true ->
  (oneOf (lit "-_dD") c = true /\ c <> 61%N) \/ c = 61%N.
Proof.
  unfold oneOf. simpl. intros H.
  destruct (N.eqb_spec c 45); [subst; left; split; [reflexivity | discriminate]|].
  destruct (N.eqb_spec c 95); [subst; left; split; [reflexivity | discriminate]|].
  destruct (N.eqb_spec c 100); [subst; left; split; [reflexivity | discriminate]|].
  destruct (N.eqb_spec c 68); [subst; left; split; [reflexivity | discriminate]|].
  destruct (N.eqb_spec c 61); [now right | discriminate].
Qed.

Lemma delimiter_plain c :
  oneOf (lit "-_dD=") c = true ->
  isDigit c = false /\ isSpace c = false /\ isSeparator c = false.
Proof.
  unfold oneOf. simpl. intros H.
  repeat match goal with
  | H : (?a || ?b) = true |- _ => apply orb_prop in H; destruct H as [H | H]
  | H : (c =? _)%N = true |- _ => apply N.eqb_eq in H; subst c
  end; try discriminate; repeat split; reflexivity.
Qed.

(** X3. A part made of a one- or two-digit number, one of [-], [_], [d], [D]
    or [=] with optional white space on either side, and a digit sequence
    gives exactly one bet: the zero-padded number with the digits read as
    a number, which is the value they denote when that is at most 2^53
    and the nearest number otherwise. *)
Theorem delimited_pair d s1 c s2 ds :
  (1 <= List.length d <= 2)%nat -> forallb isDigit d = true ->
  forallb innerSpace s1 = true -> oneOf (lit "-_dD=") c = true ->
  forallb innerSpace s2 = true ->
  ds <> [] -> forallb isDigit ds = true ->
  let part := d ++ s1 ++ [c] ++ s2 ++ ds in
  let one := [mkBet (pad2 d) (fromInteger (digitsValue ds))] in
  betsOfPart part = one /\ parseMessageToBets part = one /\
  ((digitsValue ds <= maxSafe)%Z ->
   parseMessageToBets part = [mkBet (pad2 d) (Int (digitsValue ds))]).
Proof.
  intros Hl Hd Hi1 Hc Hi2 Hne Hds part one.
  assert (Hex : (digitsValue ds <= maxSafe)%Z ->
                one = [mkBet (pad2 d) (Int (digitsValue ds))]).
  { intros Hb. unfold one. now rewrite (digits_exact ds Hds Hb). }
  assert (Hs1 := innerSpace_space _ Hi1).
  assert (Hs2 := innerSpace_space _ Hi2).
  destruct (delimiter_plain c Hc) as (Hcd & Hcs & Hcsep).
  assert (Hd0 : d <> []) by (destruct d; simpl in Hl; [lia | discriminate]).
  assert (Hb1 := blank_space s1). assert (Hb2 := blank_space s2).
  assert (Hbets : betsOfPart part = one).
  { unfold betsOfPart, part.
    rewrite (collapse_reverse d s1 c s2 ds) by assumption.
    destruct (delimiter_cases c Hc) as [[Hdelim _] | ->].
    - unfold matchRe, reDelim.
      rewrite (match_delimited (optOf "-_dD") d (blank s1) c (blank s2) ds);
        auto; try (simpl; lia).
      unfold idx. simpl nth. now rewrite (parseInt10_digits _ Hne Hds).
    - rewrite (matchRe_none reDelim _ 61%N);
        [| apply in_or_app; right; apply in_or_app; right; now left
         | reflexivity].
      rewrite (matchRe_none reReverse _ 61%N);
        [| apply in_or_app; right; apply in_or_app; right; now left
         | reflexivity].
      unfold matchRe, reEquals.
      rewrite (match_delimited (oneOfP "=") d (blank s1) 61%N (blank s2) ds);
        auto; try (simpl; lia).
      unfold idx. simpl nth. now rewrite (parseInt10_digits _ Hne Hds). }
  assert (Hparse : parseMessageToBets part = one).
  { assert (E : part = d ++ (s1 ++ [c] ++ s2) ++ ds).
    { unfold part. now rewrite <- !app_assoc. }
    rewrite E, (part_is_message d (s1 ++ [c] ++ s2) ds); auto.
    - now rewrite <- E.
    - rewrite !forallb_app, (spaces_no_separator _ Hi1),
              (spaces_no_separator _ Hi2).
      simpl. now rewrite Hcsep. }
  split; [exact Hbets|]. split; [exact Hparse|].
  intros Hb. rewrite Hparse. now apply Hex.
Qed.

Lemma delimited_pair_example :
  parseMessageToBets (lit "7 D  120") = [mkBet (lit "07") (Int 120)].
Proof.
  apply (proj2 (proj2
    (delimited_pair (lit "7") (lit " ") 68 (lit "  ") (lit "120")
       ltac:(simpl; lia) eq_refl eq_refl eq_refl eq_refl
       ltac:(discriminate) eq_refl))).
  vm_compute. discriminate.
Defined.

(** Twenty digits are read as the nearest number, which is not the value
    they denote. *)
Example delimited_pair_rounded :
  parseMessageToBets (lit "7-12345678901234567891")
  = [mkBet (lit "07") (Int 12345678901234567168)].
Proof. reflexivity. Qed.

Lemma collapse_spaced d s ds :
  d <> [] -> forallb isDigit d = true ->
  s <> [] -> forallb isSpace s = true ->
  ds <> [] -> forallb isDigit ds = true ->
  collapseSpaces (d ++ s ++ ds) = d ++ [32%N] ++ ds.
Proof.
  intros Hd0 Hd Hs0 Hs Hne Hds. unfold collapseSpaces.
  destruct d as [|x d]; [congruence|]. destruct ds as [|y ds]; [congruence|].
  rewrite collapse_plain_app by now apply forallb_digit_not_space.
  pose proof (forallb_digit_not_space _ Hds) as Hn.
  simpl in Hn. apply andb_prop in Hn. destruct Hn as [Hy Hn].
  rewrite (collapse_ws_then s y ds Hs) by now destruct (isSpace y).
  rewrite (collapse_plain false ds Hn). destruct s; [congruence | reflexivity].
Qed.

(** X4. A number and a digit sequence with only white space between them are
    taken by the first pattern and give one bet, whose amount is the
    digits read as a number: the value they denote when that is at most
    2^53, the nearest number otherwise. *)
Theorem spaced_pair d s ds :
  (1 <= List.length d <= 2)%nat -> forallb isDigit d = true ->
  s <> [] -> forallb innerSpace s = true ->
  ds <> [] -> forallb isDigit ds = true ->
  let part := d ++ s ++ ds in
  let one := [mkBet (pad2 d) (fromInteger (digitsValue ds))] in
  matchRe reDelim (collapseSpaces part) = Some [d ++ [32%N] ++ ds; d; ds] /\
  betsOfPart part = one /\ parseMessageToBets part = one /\
  ((digitsValue ds <= maxSafe)%Z ->
   parseMessageToBets part = [mkBet (pad2 d) (Int (digitsValue ds))]).
Proof.
  intros Hl Hd Hs0 Hi Hne Hds part one.
  assert (Hs := innerSpace_space _ Hi).
  assert (Hd0 : d <> []) by (destruct d; simpl in Hl; [lia | discriminate]).
  assert (Hsp := head_digit_not_space ds Hds).
  assert (Hy : match ds with x :: _ => oneOf (lit "-_dD") x = false | [] => True end).
  { destruct ds as [|y ds']; auto. simpl in Hds. apply andb_prop in Hds.
    destruct Hds as [Hy _]. now apply digit_not_in. }
  assert (Hm : matchRe reDelim (collapseSpaces part)
               = Some [d ++ [32%N] ++ ds; d; ds]).
  { unfold part. rewrite (collapse_spaced d s ds) by assumption.
    unfold matchRe.
    assert (E : matchPieces reDelim (d ++ [32%N] ++ [] ++ [] ++ ds ++ [])
                = Some [d; ds]).
    { unfold reDelim.
      apply (matchPieces_greedy num12);
        [exact Hd | simpl; lia | simpl; lia | now right |].
      apply (matchPieces_greedy spaces _ [32%N]);
        [reflexivity | simpl; lia | exact I | |].
      { right. simpl. rewrite app_nil_r. destruct ds; [congruence | exact Hsp]. }
      apply (matchPieces_greedy (optOf "-_dD") _ []);
        [reflexivity | simpl; lia | simpl; lia | |].
      { right. simpl. rewrite app_nil_r. destruct ds; [congruence | exact Hy]. }
      apply (matchPieces_greedy spaces _ []);
        [reflexivity | simpl; lia | exact I | |].
      { right. simpl. rewrite app_nil_r. destruct ds; [congruence | exact Hsp]. }
      apply (matchPieces_greedy digits _ ds []);
        [exact Hds | destruct ds; [congruence | simpl; lia] | exact I
        | now right | reflexivity]. }
    simpl app in E. rewrite app_nil_r in E. simpl app. now rewrite E. }
  assert (Hbets : betsOfPart part = one).
  { unfold betsOfPart. rewrite Hm. unfold idx. simpl nth.
    now rewrite (parseInt10_digits _ Hne Hds). }
  assert (Hparse : parseMessageToBets part = one).
  { unfold part. rewrite part_is_message; auto.
    now apply spaces_no_separator. }
  split; [exact Hm|]. split; [exact Hbets|]. split; [exact Hparse|].
  intros Hb. rewrite Hparse. unfold one. now rewrite (digits_exact ds Hds Hb).
Qed.

Lemma spaced_pair_example :
  parseMessageToBets (lit "10   300") = [mkBet (lit "10") (Int 300)].
Proof.
  apply (proj2 (proj2 (proj2
    (spaced_pair (lit "10") (lit "   ") (lit "300")
       ltac:(simpl; lia) eq_refl ltac:(discriminate) eq_refl
       ltac:(discriminate) eq_refl)))).
  vm_compute. discriminate.
Defined.

(** ** The search finds a match whenever there is one *)

Lemma rep_complete R c l h a rest (k : jstring -> jstring -> option R) :
  forallb c a = true -> (l <= List.length a)%nat -> fits h (List.length a) ->
  k a rest <> None ->
  rep c l h (a ++ rest) k <> None.
Proof.
  revert l h k. induction a as [|x a IH]; intros l h k Ha Hl Hh Hk.
  - simpl in *. assert (l = O) by lia. subst l.
    destruct rest as [|y rest]; simpl; auto.
    destruct (c y && more h); auto.
    match goal with
    | |- context [rep ?c0 ?l0 ?h0 ?s0 ?k0] => destruct (rep c0 l0 h0 s0 k0)
    end; [discriminate | auto].
  - simpl in Ha. apply andb_prop in Ha. destruct Ha as [Hx Ha].
    simpl. rewrite Hx.
    assert (Hm : more h = true).
    { destruct h as [[|m]|]; simpl in *; auto. lia. }
    rewrite Hm. simpl.
    assert (Hin : rep c (pred l) (option_map pred h) (a ++ rest)
                    (fun a0 rest0 => k (x :: a0) rest0) <> None).
    { apply IH; auto.
      - simpl in Hl. lia.
      - destruct h as [m|]; simpl in *; auto. lia. }
    destruct (rep c (pred l) (option_map pred h) (a ++ rest)
                (fun a0 rest0 => k (x :: a0) rest0)); [discriminate | congruence].
Qed.

Lemma matchPieces_complete ps s caps :
  matches ps s caps -> matchPieces ps s <> None.
Proof.
  induction 1 as [|p ps a rest caps Ha Hl Hh Hm IH]; simpl; [discriminate|].
  apply rep_complete; auto.
  destruct (matchPieces ps rest); [discriminate | congruence].
Qed.

Lemma matches_step p ps a rest :
  forallb (cls p) a = true -> (lo p <= List.length a)%nat ->
  fits (hi p) (List.length a) ->
  (exists caps, matches ps rest caps) ->
  exists caps, matches (p :: ps) (a ++ rest) caps.
Proof.
  intros Ha Hl Hh [caps Hm]. eexists. constructor; eauto.
Qed.

(** X5. The fourth pattern never decides: a string it matches is matched by
    the first pattern, which is tried before it. *)
Theorem fallback_never_reached s :
  matchRe reDelim s = None -> matchRe reSpace s = None.
Proof.
  intros H1. unfold matchRe in *.
  destruct (matchPieces reSpace s) as [caps|] eqn:E; auto. exfalso.
  apply matchPieces_sound in E. unfold reSpace in E.
  inversion E as [|p1 ps1 a1 r1 c1 Ha1 Hl1 Hh1 E1]; subst.
  inversion E1 as [|p2 ps2 a2 r2 c2 Ha2 Hl2 Hh2 E2]; subst.
  inversion E2 as [|p3 ps3 a3 r3 c3 Ha3 Hl3 Hh3 E3]; subst.
  inversion E3; subst.
  assert (M : exists caps, matches reDelim (a1 ++ a2 ++ [] ++ [] ++ a3 ++ []) caps).
  { unfold reDelim.
    apply matches_step; auto. apply matches_step; auto; [simpl; lia|].
    apply matches_step; [reflexivity | simpl; lia | simpl; lia |].
    apply matches_step; [reflexivity | simpl; lia | exact I |].
    apply matches_step; auto. exists []. constructor. }
  destruct M as [caps M]. apply matchPieces_complete in M. simpl app in M.
  destruct (matchPieces reDelim (a1 ++ a2 ++ a3 ++ [])); [discriminate | congruence].
Qed.

Lemma fallback_never_reached_example : matchRe reSpace (lit "hello") = None.
Proof. apply fallback_never_reached. reflexivity. Defined.

(** ** Short digit strings *)

(** X6. Two digits with nothing else are read as a one-digit number and a
    one-digit amount; one digit alone gives nothing. *)
Theorem bare_digits d1 d2 :
  isDigit d1 = true -> isDigit d2 = true ->
  parseMessageToBets [d1; d2] = [mkBet [48%N; d1] (Int (digitVal d2))] /\
  parseMessageToBets [d1] = [].
Proof.
  intros H1 H2. apply digit_cases in H1. apply digit_cases in H2.
  simpl in H1, H2.
  repeat (destruct H1 as [H1 | H1]; [subst d1|]); try contradiction;
    repeat (destruct H2 as [H2 | H2]; [subst d2|]); try contradiction;
    split; vm_compute; reflexivity.
Qed.

Lemma bare_digits_example :
  parseMessageToBets (lit "47") = [mkBet (lit "04") (Int 7)].
Proof. apply (bare_digits 52 55); reflexivity. Defined.

(** ** Reversal *)

(** X7. Reversing twice gives the string back when it has at least two
    characters, as every bet number has. *)
Theorem reverse2_involutive s :
  (2 <= List.length s)%nat -> reverse2 (reverse2 s) = s.
Proof.
  intros H.
  assert (P : forall t, (2 <= List.length t)%nat -> padStart2 t = t).
  { intros t Ht. unfold padStart2.
    now replace (2 - List.length t)%nat with O by lia. }
  unfold reverse2. rewrite (P s H), P by now rewrite length_rev.
  apply rev_involutive.
Qed.

Lemma reverse2_involutive_example :
  reverse2 (reverse2 (lit "15")) = lit "15".
Proof. apply reverse2_involutive. simpl. lia. Defined.

(** On a single character the reversal pads first, so it is not undone. *)
Lemma reverse2_one_character :
  reverse2 (lit "5") = lit "50" /\ reverse2 (lit "50") = lit "05".
Proof. split; reflexivity. Qed.

End ParserMore.

(* ================================================================== *)
(** * Further properties of the summary *)
(* ================================================================== *)

Module WebhookMore.
Import Js Props MoreProps JsFacts ObjFacts Webhook WebhookSpec.

(** ** The local hour in terms of the time of day in UTC *)

(** X8. For a time value whose shifted image is a date, the filter keeps the
    row exactly when the UTC time of day is before 05:30 or from 17:30
    on. *)
Theorem before_noon_window t :
  (Z.abs (t + yangonOffset) <= maxTimeValue)%Z ->
  (isBeforeNoonLocal (Int t) = true <->
   (t mod msPerDay < 19800000 \/ 63000000 <= t mod msPerDay)%Z).
Proof.
  intros Hr. unfold isBeforeNoonLocal.
  rewrite num_add_safe by (unfold maxTimeValue, maxSafe in *; lia).
  cbn [newDate].
  apply Z.leb_le in Hr. rewrite Hr. cbn [getUTCHours num_ltb].
  unfold yangonOffset, msPerHour, msPerDay. rewrite Z.ltb_lt.
  Z.div_mod_to_equations. lia.
Qed.

Lemma before_noon_window_example : isBeforeNoonLocal (Int 64800000) = true.
Proof.
  apply (proj2 (before_noon_window 64800000 ltac:(vm_compute; discriminate))).
  right. vm_compute. discriminate.
Defined.

(** X9. A row passes the filter only if its creation time is a date and the
    shifted time is still one. *)
Theorem before_noon_needs_date time :
  isBeforeNoonLocal time = true ->
  exists t, time = Int t /\ (Z.abs (t + yangonOffset) <= maxTimeValue)%Z.
Proof.
  destruct time as [t| |sg]; [|discriminate|discriminate].
  intros H. exists t. split; auto.
  unfold isBeforeNoonLocal in H. cbn [num_add] in H.
  destruct (Z.le_gt_cases (Z.abs (t + yangonOffset)) maxSafe) as [Hs | Hs].
  - rewrite (fromInteger_safe _ Hs) in H. cbn [newDate] in H.
    destruct (Z.leb_spec (Z.abs (t + yangonOffset)) maxTimeValue); auto.
    discriminate.
  - destruct (fromInteger (t + yangonOffset)) as [v| |sg] eqn:E;
      try discriminate.
    pose proof (fromInteger_big _ v Hs E) as Hv. cbn [newDate] in H.
    destruct (Z.leb_spec (Z.abs v) maxTimeValue) as [Hle | Hgt];
      [|discriminate].
    unfold maxTimeValue, maxSafe in *. lia.
Qed.

Lemma before_noon_needs_date_example :
  exists t, Int 0 = Int t /\ (Z.abs (t + yangonOffset) <= maxTimeValue)%Z.
Proof. apply before_noon_needs_date. reflexivity. Defined.

(** ** Total mode does not depend on the order of the rows *)

Lemma compare_refl a : compare a a = Eq.
Proof.
  induction a as [|x a IH]; simpl; auto. now rewrite N.compare_refl.
Qed.

Lemma lt_irrefl a : ~ lt a a.
Proof. unfold lt. rewrite compare_refl. discriminate. Qed.

Lemma lt_asym a b : lt a b -> ~ lt b a.
Proof.
  unfold lt. intros H. rewrite (compare_antisym a b), H. discriminate.
Qed.

(** A strictly ascending list is determined by its elements. *)
Lemma sorted_unique l1 l2 :
  StronglySorted lt l1 -> StronglySorted lt l2 ->
  (forall x, In x l1 <-> In x l2) -> l1 = l2.
Proof.
  intros H1. revert l2. induction H1 as [|x l1 Hs1 IH Hx]; intros l2 H2 Hin.
  - destruct l2 as [|y l2]; auto. destruct (proj2 (Hin y)). now left.
  - destruct H2 as [|y l2 Hs2 Hy].
    + destruct (proj1 (Hin x)). now left.
    + rewrite Forall_forall in Hx, Hy.
      assert (x = y).
      { destruct (proj1 (Hin x) (or_introl eq_refl)) as [E | Hxl2]; auto.
        destruct (proj2 (Hin y) (or_introl eq_refl)) as [E | Hyl1]; auto.
        exfalso. apply (lt_asym x y); auto. }
      subst y. f_equal. apply IH; auto. intros z. split; intros Hz.
      * destruct (proj1 (Hin z) (or_intror Hz)) as [E | Hz2]; auto.
        subst z. exfalso. apply (lt_irrefl x). now apply Hx.
      * destruct (proj2 (Hin z) (or_intror Hz)) as [E | Hz1]; auto.
        subst z. exfalso. apply (lt_irrefl x). now apply Hy.
Qed.

Lemma groupSum_perm rows rows' n :
  Permutation rows rows' -> groupSum rows n = groupSum rows' n.
Proof.
  unfold groupSum, rowsOf.
  induction 1 as [|r l l' Hp IH|r1 r2 l|l l' l'' H1 IH1 H2 IH2]; simpl; auto.
  - destruct (eqb (number r) n); simpl; lia.
  - destruct (eqb (number r1) n), (eqb (number r2) n); simpl; lia.
  - congruence.
Qed.

Lemma numbers_perm rows rows' n :
  Permutation rows rows' ->
  (In n (map number rows) <-> In n (map number rows')).
Proof.
  intros Hp. split; apply Permutation_in; [|symmetry]; now apply Permutation_map.
Qed.

Lemma totalLines_spec rows :
  forallb totalRow rows = true -> (absSum rows <= maxSafe)%Z ->
  totalLines rows = map (totalLine rows) (sort (keys (aggTotal rows))).
Proof.
  intros Hd Hb. unfold totalLines. apply map_ext_in. intros n Hn.
  apply in_sorted_keys in Hn. rewrite (aggTotal_get rows n Hd Hb) in Hn |- *.
  destruct (present n rows); [reflexivity | congruence].
Qed.

Lemma total_keys_spec rows n :
  forallb totalRow rows = true -> (absSum rows <= maxSafe)%Z ->
  In n (sort (keys (aggTotal rows))) <-> In n (map number rows).
Proof.
  intros Hd Hb.
  rewrite in_sorted_keys, (aggTotal_get rows n Hd Hb), <- present_in.
  destruct (present n rows); split; congruence.
Qed.

Lemma forallb_perm {A} (p : A -> bool) l l' :
  Permutation l l' -> forallb p l = true -> forallb p l' = true.
Proof.
  intros Hp H. rewrite forallb_forall in *. intros x Hx. apply H.
  apply (Permutation_in x (Permutation_sym Hp) Hx).
Qed.

Lemma absSum_perm rows rows' :
  Permutation rows rows' -> absSum rows = absSum rows'.
Proof.
  unfold absSum.
  induction 1 as [|r l l' Hp IH|r1 r2 l|l l' l'' H1 IH1 H2 IH2]; simpl; lia.
Qed.

(** X10. The text of total mode is the same for every order of the same
    rows, when the amounts are whole numbers, or no numbers at all, that
    stay within 2^53 in total. *)
Theorem total_mode_order_independent rows rows' :
  forallb totalRow rows = true -> (absSum rows <= maxSafe)%Z ->
  Permutation rows rows' ->
  replyAggregates rows false = replyAggregates rows' false.
Proof.
  intros Hd Hb Hp.
  pose proof (forallb_perm _ _ _ Hp Hd) as Hd'.
  pose proof Hb as Hb'. rewrite (absSum_perm _ _ Hp) in Hb'.
  destruct rows as [|r rows].
  - apply Permutation_nil in Hp. now subst.
  - destruct rows' as [|r' rows'].
    + symmetry in Hp. apply Permutation_nil in Hp. discriminate.
    + unfold replyAggregates. simpl negb. cbv iota. f_equal. f_equal.
      rewrite (totalLines_spec _ Hd Hb), (totalLines_spec _ Hd' Hb').
      assert (E : sort (keys (aggTotal (r :: rows)))
                  = sort (keys (aggTotal (r' :: rows')))).
      { apply sorted_unique.
        - apply sorted_keys, aggTotal_nodup.
        - apply sorted_keys, aggTotal_nodup.
        - intros n. rewrite (total_keys_spec _ n Hd Hb).
          rewrite (total_keys_spec _ n Hd' Hb'). now apply numbers_perm. }
      rewrite E. apply map_ext. intros n. unfold totalLine.
      now rewrite (groupSum_perm _ _ n Hp).
Qed.

Lemma total_mode_order_independent_example :
  replyAggregates [mkRow (lit "22") (VNum (Int 5)) (lit "al") (Int 0);
                   mkRow (lit "05") (VNum (Int 1)) (lit "bob") (Int 0)] false
  = replyAggregates [mkRow (lit "05") (VNum (Int 1)) (lit "bob") (Int 0);
                     mkRow (lit "22") (VNum (Int 5)) (lit "al") (Int 0)] false.
Proof.
  apply total_mode_order_independent;
    [reflexivity | vm_compute; discriminate | apply perm_swap].
Defined.

(** Beyond 2^53 the order of the rows shows in the total: the same three
    amounts give two different sums. *)
Example total_mode_order_beyond_safe :
  let big := mkRow (lit "22") (VNum (Int 9007199254740992)) (lit "al") (Int 0) in
  let one := mkRow (lit "22") (VNum (Int 1)) (lit "al") (Int 0) in
  replyAggregates [big; one; one] false = totalHeader ++ lit "22 - 9007199254740992" /\
  replyAggregates [one; one; big] false = totalHeader ++ lit "22 - 9007199254740994".
Proof. split; reflexivity. Qed.

(** ** The two modes on amounts that are numbers *)

Lemma modes_agree_example :
  let rows := [mkRow (lit "22") (VNum (Int 5)) (lit "al") (Int 0);
               mkRow (lit "22") (VNum (Int 7)) (lit "bob") (Int 0);
               mkRow (lit "22") (VNum (Int 0)) (lit "al") (Int 0)] in
  totalOf rows (lit "22") = Some (perSenderTotal rows (lit "22")).
Proof.
  apply modes_agree_on_numeric.
  - reflexivity.
  - vm_compute. discriminate.
  - simpl. now left.
Defined.

(** ** Per-sender mode on any sender strings *)

Lemma filter_pairs {V} (p : jstring -> bool) (f : jstring -> V) l :
  filter (fun e => p (fst e)) (map (fun s => (s, f s)) l)
  = map (fun s => (s, f s)) (filter p l).
Proof.
  induction l as [|x l IH]; simpl; auto.
  destruct (p x); simpl; now rewrite IH.
Qed.

Lemma insertBy_pairs {V} (le : jstring -> jstring -> bool) (f : jstring -> V) x l :
  insertBy (fun a b => le (fst a) (fst b)) (x, f x) (map (fun s => (s, f s)) l)
  = map (fun s => (s, f s)) (insertBy le x l).
Proof.
  induction l as [|y l IH]; simpl; auto.
  destruct (le x y); simpl; auto. now rewrite IH.
Qed.

Lemma sortBy_pairs {V} (le : jstring -> jstring -> bool) (f : jstring -> V) l :
  sortBy (fun a b => le (fst a) (fst b)) (map (fun s => (s, f s)) l)
  = map (fun s => (s, f s)) (sortBy le l).
Proof.
  induction l as [|x l IH]; simpl; auto.
  rewrite IH. apply insertBy_pairs.
Qed.

(** The entries of the object of a number, as [Object.entries] lists them. *)
Lemma innerOf_entries rows n :
  entries (innerOf rows n)
  = map (fun s => (s, pairSum rows n s)) (senderOrder rows n).
Proof.
  unfold entries, senderOrder. rewrite innerOf_shape, map_app.
  rewrite (filter_pairs isIndexKey), (filter_pairs (fun s => negb (isIndexKey s))).
  f_equal.
  apply (sortBy_pairs (fun a b => (indexOf a <=? indexOf b)%N)
                      (pairSum rows n)).
Qed.

Lemma sorted_weaken {A} (R S : A -> A -> Prop) l :
  (forall a b, R a b -> S a b) -> StronglySorted R l -> StronglySorted S l.
Proof.
  intros HRS. induction 1 as [|x l Hs IH Hx]; constructor; auto.
  revert Hx. apply Forall_impl. intros y. apply HRS.
Qed.

(** What the order of the senders of a number is made of. *)
Lemma senderOrder_index_first rows n : indexSendersFirst rows n.
Proof.
  exists (sortBy (fun a b => (indexOf a <=? indexOf b)%N)
                 (filter isIndexKey (sendersOf rows n))).
  split; [reflexivity|]. split.
  - symmetry. apply sortBy_perm.
  - apply (sorted_weaken (holds (fun a b => (indexOf a <=? indexOf b)%N))).
    + intros a b H. now apply N.leb_le.
    + apply sortBy_sorted.
      * intros a b. rewrite !N.leb_le. lia.
      * intros a b c. rewrite !N.leb_le. lia.
Qed.

(** X12. In per-sender mode every non-empty set of rows gives the header and
    one line per distinct number, numbers strictly ascending; in a line
    the senders whose name is an array index come first, by ascending
    index, and the other senders follow in the order of their first row.
    It is stated for rows whose amount is a whole number, whose amounts
    stay within 2^53 in total, and whose number and sender are not names
    inherited from [Object.prototype]. *)
Theorem per_sender_report_any_senders rows :
  rows <> [] ->
  forallb senderRow rows = true ->
  (absSum rows <= maxSafe)%Z ->
  perSenderReportJs rows /\ forall n, indexSendersFirst rows n.
Proof.
  intros Hne Hd Hb. split; [|intros n; apply senderOrder_index_first].
  exists (sort (keys (aggPerUser rows))). split; [|split].
  - destruct rows as [|r rows]; [congruence|].
    unfold replyAggregates. simpl negb. cbv iota. f_equal. f_equal.
    unfold perUserLines. apply map_ext_in. intros n Hn.
    apply in_sorted_keys in Hn. unfold perUserLine, perSenderLineJs.
    rewrite aggPerUser_get in Hn |- *.
    destruct (present n (r :: rows)); [|congruence].
    rewrite innerOf_entries, map_map. f_equal. f_equal. f_equal.
    apply map_ext. intros s. unfold senderPart. cbn [fst snd].
    now rewrite (pairSum_whole _ n s Hd Hb).
  - apply sorted_keys, aggPerUser_nodup.
  - intros n. rewrite in_sorted_keys, aggPerUser_get, <- present_in.
    destruct (present n rows); split; congruence.
Qed.

Lemma per_sender_report_any_senders_example :
  let rows := [mkRow (lit "22") (VNum (Int 1)) (lit "bob") (Int 0);
               mkRow (lit "22") (VNum (Int 2)) (lit "10") (Int 0);
               mkRow (lit "22") (VNum (Int 3)) (lit "9") (Int 0)] in
  perSenderReportJs rows /\ forall n, indexSendersFirst rows n.
Proof.
  apply per_sender_report_any_senders;
    [discriminate | reflexivity | vm_compute; discriminate].
Defined.

Example per_sender_numeral_names :
  replyAggregates [mkRow (lit "22") (VNum (Int 1)) (lit "bob") (Int 0);
                   mkRow (lit "22") (VNum (Int 2)) (lit "10") (Int 0);
                   mkRow (lit "22") (VNum (Int 3)) (lit "9") (Int 0);
                   mkRow (lit "22") (VNum (Int 4)) (lit "07") (Int 0)] true
  = perUserHeader ++ lit "22 -> 9: 3; 10: 2; bob: 1; 07: 4".
Proof. reflexivity. Qed.

(** No sender is lost or listed twice by the reordering. *)
Lemma senderOrder_perm rows n :
  Permutation (senderOrder rows n) (sendersOf rows n).
Proof.
  unfold senderOrder. symmetry.
  etransitivity; [apply (filter_split_perm isIndexKey)|].
  apply Permutation_app_tail. apply sortBy_perm.
Qed.

(** ** What an amount that is no number does to a sender's sum *)

Lemma lookup2_fold rows n s :
  lookup2 rows n s = fold_left pairStep (pairRows rows n s) None.
Proof.
  unfold lookup2, pairRows. rewrite aggPerUser_get.
  destruct (present n rows) eqn:P.
  - unfold innerOf. now rewrite innerFold_value.
  - now rewrite (rowsOf_absent _ _ P).
Qed.

(** A string that cannot be a numeral is NaN in the per-user branch. *)
Lemma amountPerUser_text r t :
  amount r = VStr t -> notNumeral t = true -> amountPerUser r = NaN.
Proof.
  intros E Ht. unfold amountPerUser. rewrite E.
  assert (Hne : t <> []).
  { intros ->. discriminate. }
  destruct t as [|c t]; [congruence|]. cbn [toBoolean].
  cbn [toNumber]. now apply notNumeral_NaN.
Qed.

Lemma num_add_NaN v : num_add v NaN = NaN.
Proof. now destruct v. Qed.

(** X13. When a sender has a row under a number whose amount is a string
    that cannot be a numeral, the sum shown for the sender is NaN if that
    row is the last one, and otherwise the sum of the amounts that follow
    it: what came before is dropped.  It is stated for numbers and senders
    that are not names inherited from [Object.prototype] and for
    following amounts that are whole numbers within 2^53 in total. *)
Theorem per_sender_sum_restarts rows n s pre bad good t :
  forallb plainRow rows = true ->
  pairRows rows n s = pre ++ bad :: good ->
  amount bad = VStr t -> notNumeral t = true ->
  Forall (fun r => isWhole (amount r) = true) good ->
  (absSum good <= maxSafe)%Z ->
  lookup2 rows n s
  = Some (match good with
          | [] => NaN
          | _ :: _ => Int (sumZ (map contribution good))
          end).
Proof.
  intros _ Hrows Hbad Ht Hgood Hb. rewrite lookup2_fold, Hrows, fold_left_app.
  cbn [fold_left].
  assert (E : pairStep (fold_left pairStep pre None) bad = Some NaN).
  { unfold pairStep at 1.
    now rewrite (amountPerUser_text bad t Hbad Ht), num_add_NaN. }
  rewrite E. destruct good as [|r g]; [reflexivity|].
  rewrite (pairFold_whole (r :: g) (Some NaN) 0 Hgood eq_refl);
    [reflexivity | change (Z.abs 0) with 0%Z; lia | discriminate].
Qed.

Lemma per_sender_sum_restarts_example :
  lookup2 [mkRow (lit "22") (VNum (Int 5)) (lit "al") (Int 0);
           mkRow (lit "22") (VStr (lit "abc")) (lit "al") (Int 0);
           mkRow (lit "22") (VNum (Int 7)) (lit "al") (Int 0)]
          (lit "22") (lit "al")
  = Some (Int 7).
Proof.
  apply (per_sender_sum_restarts _ _ _
           [mkRow (lit "22") (VNum (Int 5)) (lit "al") (Int 0)]
           (mkRow (lit "22") (VStr (lit "abc")) (lit "al") (Int 0))
           [mkRow (lit "22") (VNum (Int 7)) (lit "al") (Int 0)]
           (lit "abc")).
  - reflexivity.
  - reflexivity.
  - reflexivity.
  - reflexivity.
  - repeat constructor.
  - vm_compute. discriminate.
Defined.

End WebhookMore.

(* ================================================================== *)
(** * Properties of the webhook handler *)
(* ================================================================== *)

Module HandlerSpec.
Import Js Props MoreProps JsFacts ParserSpec ParserMore Handler.

(** ** The sender *)

Lemma orElse_nonempty a b : b <> [] -> orElse a b <> [].
Proof. intros Hb. destruct a; simpl; [exact Hb | discriminate]. Qed.

Lemma senderOf_nonempty m : senderOf m <> [].
Proof.
  unfold senderOf. apply orElse_nonempty, orElse_nonempty. discriminate.
Qed.

(** ** The rows that are stored *)

Lemma summarize_no_write commandText chatId st :
  written (handleSummarize commandText chatId st) = [].
Proof.
  unfold handleSummarize. destruct (selectAnswer st); reflexivity.
Qed.

Lemma parse_forall (P : Parser.Bet -> Prop) text :
  (forall part, Forall P (Parser.betsOfPart part)) ->
  Forall P (Parser.parseMessageToBets text).
Proof.
  intros H. rewrite parse_flat, Forall_forall. intros b Hb.
  apply in_flat_map in Hb. destruct Hb as (part & _ & Hb).
  specialize (H part). rewrite Forall_forall in H. now apply H.
Qed.

(** X14. Every row the handler hands to the store has a number of two decimal
    digits, an amount that is a whole number and not negative, or the
    positive infinity when the digits denote more than a number can hold,
    and a sender that is not empty; the handler never stores an empty
    batch. *)
Theorem stored_rows_well_formed req st rows :
  In rows (written (snd (handler req st))) ->
  rows <> [] /\ Forall wellFormedRow rows.
Proof.
  unfold handler.
  destruct (negb (eqb (method req) (lit "POST"))); [intros []|].
  destruct (match body req with
            | Some b => match message b with
                        | Some m => Some m
                        | None => edited_message b
                        end
            | None => None
            end) as [m|]; [|intros []].
  destruct (startsWith (lit "/summarize") (trim (orEmpty (text m)))).
  { simpl snd. rewrite summarize_no_write. intros []. }
  pose proof (parse_forall _ (trim (orEmpty (text m))) betsOfPart_numbers) as Hn.
  pose proof (parse_forall _ (trim (orEmpty (text m))) betsOfPart_amounts) as Ha.
  destruct (Parser.parseMessageToBets (trim (orEmpty (text m)))) as [|b bets];
    [intros []|].
  pose (f := fun b0 => mkNewRow (Parser.number b0) (Parser.amount b0)
                                (senderOf m) (chat_id m)).
  assert (E : forall e l c t,
            written (Insert (map f (b :: bets))
                     :: (if e : bool then [LogError l] else []) ++ [Send c t])
            = [map f (b :: bets)]).
  { intros e l c t. destruct e; reflexivity. }
  cbv zeta. cbn [snd]. fold f. rewrite E. intros [<- | []].
  split; [discriminate|].
  rewrite Forall_forall in *. intros r Hr. apply in_map_iff in Hr.
  destruct Hr as (b0 & <- & Hb0). unfold f. repeat split; simpl.
  - apply (Hn b0 Hb0).
  - apply (Hn b0 Hb0).
  - apply (Ha b0 Hb0).
  - apply senderOf_nonempty.
Qed.

Lemma stored_rows_well_formed_example :
  let m := mkMessage (Some 7%Z)
             (Some (mkFrom None (Some (lit "Al")) None (Some 9%Z)))
             (Some (lit " 15r20, 7=3 ")) in
  let rows := [mkNewRow (lit "15") (Int 20) (lit "Al") (Some 7%Z);
               mkNewRow (lit "51") (Int 20) (lit "Al") (Some 7%Z);
               mkNewRow (lit "07") (Int 3) (lit "Al") (Some 7%Z)] in
  rows <> [] /\ Forall wellFormedRow rows.
Proof.
  intros m rows.
  apply (stored_rows_well_formed
           (mkRequest (lit "POST") (Some (mkBody (Some m) None)))
           (mkStore false SelectError)).
  simpl. now left.
Defined.

(** ** Messages, reads and writes *)

(** X15. A request causes at most one write and at most one read, never both,
    and exactly one message for each of them: nothing is sent when the
    store is not used, and a request that is not a POST has no effect. *)
Theorem one_message_per_store_use req st :
  let effs := snd (handler req st) in
  (List.length (written effs) <= 1)%nat /\
  (List.length (queried effs) <= 1)%nat /\
  (written effs = [] \/ queried effs = []) /\
  List.length (sent effs)
    = (List.length (written effs) + List.length (queried effs))%nat /\
  (fst (handler req st) = MethodNotAllowed -> effs = []).
Proof.
  unfold handler.
  destruct (negb (eqb (method req) (lit "POST"))); [simpl; auto 10|].
  destruct (match body req with
            | Some b => match message b with
                        | Some m => Some m
                        | None => edited_message b
                        end
            | None => None
            end) as [m|]; [|simpl; auto 10].
  destruct (startsWith (lit "/summarize") (trim (orEmpty (text m)))).
  { unfold handleSummarize. destruct (selectAnswer st); simpl;
      repeat split; auto; discriminate. }
  destruct (Parser.parseMessageToBets (trim (orEmpty (text m)))) as [|b bets];
    [simpl; auto 10|].
  destruct (insertError st); simpl; repeat split; auto; discriminate.
Qed.

(** X16. A text that starts with the command word is never stored, whatever
    follows the word, and is answered with one message to the chat it
    came from. *)
Theorem command_never_writes req st b m :
  method req = lit "POST" ->
  body req = Some b -> message b = Some m ->
  startsWith (lit "/summarize") (trim (orEmpty (text m))) = true ->
  let effs := snd (handler req st) in
  written effs = [] /\ queried effs = [chat_id m] /\
  exists answer, sent effs = [(chat_id m, answer)].
Proof.
  unfold handler. intros Hpost Hbody Hmsg Hcmd.
  rewrite Hpost, Hbody, Hmsg. cbn [negb eqb].
  replace (eqb (lit "POST") (lit "POST")) with true by reflexivity.
  cbn [negb]. rewrite Hcmd. simpl snd.
  unfold handleSummarize. destruct (selectAnswer st); simpl; eauto.
Qed.

Lemma command_never_writes_example :
  let m := mkMessage (Some 7%Z) None (Some (lit "/summarize 22-500")) in
  let effs := snd (handler (mkRequest (lit "POST") (Some (mkBody (Some m) None)))
                           (mkStore false (SelectData (Some [])))) in
  written effs = [] /\ queried effs = [Some 7%Z] /\
  exists answer, sent effs = [(Some 7%Z, answer)].
Proof.
  intros m.
  apply (command_never_writes
           (mkRequest (lit "POST") (Some (mkBody (Some m) None)))
           (mkStore false (SelectData (Some []))) (mkBody (Some m) None) m);
    reflexivity.
Defined.

(** X17. The answer to a request does not depend on whether the insert
    failed: the confirmation is sent in both cases. *)
Theorem reply_ignores_insert_error req e1 e2 answer :
  fst (handler req (mkStore e1 answer)) = fst (handler req (mkStore e2 answer)) /\
  sent (snd (handler req (mkStore e1 answer)))
  = sent (snd (handler req (mkStore e2 answer))) /\
  written (snd (handler req (mkStore e1 answer)))
  = written (snd (handler req (mkStore e2 answer))).
Proof.
  unfold handler.
  destruct (negb (eqb (method req) (lit "POST"))); [auto|].
  destruct (match body req with
            | Some b => match message b with
                        | Some m => Some m
                        | None => edited_message b
                        end
            | None => None
            end) as [m|]; [|auto].
  destruct (startsWith (lit "/summarize") (trim (orEmpty (text m)))); [auto|].
  destruct (Parser.parseMessageToBets (trim (orEmpty (text m)))) as [|b bets];
    [auto|].
  destruct e1, e2; auto.
Qed.

Lemma one_message_per_store_use_example :
  snd (handler (mkRequest (lit "GET") None) (mkStore false SelectError)) = [].
Proof.
  apply (proj2 (proj2 (proj2 (proj2
           (one_message_per_store_use (mkRequest (lit "GET") None)
                                      (mkStore false SelectError)))))).
  reflexivity.
Defined.

End HandlerSpec.
